(** * The skynet service client: registry actor, attempts and the send loop

    A shallow embedding of [client/serviceclient.go].  The Go code is a set of
    goroutines that talk over unbuffered channels; every goroutine body is
    embedded as a function on the state it touches, and the points at which a
    goroutine waits on a channel are the events that drive it:

    - the registry actor [mux] is driven by the cases of its [select];
    - the loop of [send] is driven by the three channels it selects on;
    - an attempt ([attemptSend]) runs up to the push of its result on the
      attempts channel, and its deferred releases run when it exits.

    Pointers to [servicePool] objects are indices into an arena, because the
    same object is reachable from the instance map, from the instance pool and
    from the attempt that leased it. *)

From stdpp Require Import base gmap sets list strings pretty.
From Stdlib Require Import ZArith.

Abbreviation bytes := (list Byte.byte).

(** Go's [error] interface, as far as this file looks at it: the dynamic type
    is either [serviceError] (the struct that embeds an error) or anything
    else. *)
Inductive error : Type :=
  | errorString (msg : string)
  | serviceError (inner : error).

(** [_, ok := err.(serviceError)] *)
Definition is_serviceError (e : error) : bool :=
  match e with
  | serviceError _ => true
  | errorString _ => false
  end.

(** ** Package skynet *)
Module skynet.

Record RequestInfo := { RequestID : string }.

(** Modelled from the spec: [skynet.UUID] is not part of this file; the spec
    asks for "a fresh unique request identifier".  The generator state is a
    counter, and the identifier is its decimal notation, so two calls never
    return the same identifier. *)
Definition UUID (g : N) : string * N := (pretty g, N.succ g).

End skynet.

(** ** Package service *)
Module service.

(** The fields of [service.Service] that the client reads:
    [Config.ServiceAddr.String()], [Config.Name] and [Registered]. *)
Record Service := {
  ServiceAddr : string;
  Name : string;
  Registered : bool;
}.

Record ServiceRPCIn := {
  RequestInfo : skynet.RequestInfo;
  Method : string;
  In : bytes;
}.

Record ServiceRPCOut := {
  Out : bytes;
  Err : option error;
}.

End service.

(** ** Package pools *)
Module pools.

Inductive acquired (R : Type) : Type :=
  | Acquired (r : R)
  | AcquireError (e : error)
  | AcquireBlocks.
Arguments Acquired {R} r.
Arguments AcquireError {R} e.
Arguments AcquireBlocks {R}.

Section ResourcePool.
Context {R : Type}.
(** The capability [IsClosed] of [pools.Resource]. *)
Variable IsClosed : R → bool.

(** The first idle resource that is not closed; the closed ones met on the
    way are dropped. *)
Fixpoint take_idle (idle : list R) : option R * list R :=
  match idle with
  | [] => (None, [])
  | r :: rest => if IsClosed r then take_idle rest else (Some r, rest)
  end.

(** Modelled from the spec: package pools is not part of this file.
    "Acquire() → (resource, error) blocks until a resource is available (or
    returns an error if none can ever become available)"; a closed resource
    is never handed "to future acquirers".  [create] is the outcome of the
    pool's creation function, [None] for a pool that has none to call: the
    instance pool is built with a creation function that panics and gets
    its resources through [Release] only.  A bound on the number of
    resources is not modelled apart from that. *)
Definition Acquire (create : option (R + error)) (idle : list R)
  : acquired R * list R :=
  match take_idle idle with
  | (Some r, idle') => (Acquired r, idle')
  | (None, idle') =>
      match create with
      | Some (inl r) => (Acquired r, idle')
      | Some (inr e) => (AcquireError e, idle')
      | None => (AcquireBlocks, idle')
      end
  end.

(** Modelled from the spec: "Release(resource) returns a resource for
    reuse, but if the resource reports itself closed, the pool must discard
    it rather than return it to future acquirers".  A nil resource is
    dropped as well. *)
Definition Release (r : option R) (idle : list R) : list R :=
  match r with
  | Some r => if IsClosed r then idle else idle ++ [r]
  | None => idle
  end.
End ResourcePool.

End pools.

(** ** Package client *)
Module client.
Import skynet service.

(** A connection resource.  Modelled from the spec: the declaration of
    [ServiceResource] is not part of this file; it is "a leaseable handle
    representing one usable transport channel to one instance", and closing it
    marks the handle so that its pool discards it.  The handle is the identity
    of its [rpcClient]; the closed handles are a set in the state. *)
Record ServiceResource := {
  rpcClient : nat;
  sr_service : Service;
}.

(** [type servicePool struct { service; pool; closed }]; [sp_pool] is the
    list of idle connections of the pool the entry owns. *)
Record servicePool := {
  sp_service : Service;
  sp_pool : list ServiceResource;
  sp_closed : bool;
}.

(** [func (sp *servicePool) Close()] *)
Definition Close (sp : servicePool) : servicePool :=
  {| sp_service := sp_service sp; sp_pool := sp_pool sp; sp_closed := true |}.

(** [func (sp *servicePool) IsClosed() bool] *)
Definition IsClosed (sp : servicePool) : bool := sp_closed sp.

(** A [*servicePool]. *)
Abbreviation ptr := nat.

Record timeoutLengths := {
  retry : Z;
  giveup : Z;
}.

(** What [c.Log.Item] is called with. *)
Inductive LogItem : Type :=
  | ServiceDiscovered (s : Service)
  | ServiceRemoved (s : Service)
  | LogError (e : error).

(** One call on the wire: the sequence number is left implicit in the
    position in the list. *)
Record WireCall := {
  wc_client : nat;
  wc_method : string;
  wc_in : ServiceRPCIn;
}.

(** The [ServiceClient] and what it reaches.  [Log], [instances],
    [instancePool] (its idle resources), [muxChan] (the senders parked on the
    unbuffered channel), [retryTimeout] and [giveupTimeout] are the fields of
    the struct; [heap] is the arena of [servicePool] objects, [closedClients]
    the connection handles that were closed, [uuids] the state of
    [skynet.UUID], [dials] the number of connection acquisitions so far and
    [wire] the calls made on the transport. *)
Record ServiceClient := {
  Log : list LogItem;
  instances : gmap string ptr;
  instancePool : list ptr;
  muxChan : list timeoutLengths;
  retryTimeout : Z;
  giveupTimeout : Z;
  heap : list servicePool;
  closedClients : gset nat;
  uuids : N;
  dials : nat;
  wire : list WireCall;
}.

Definition set_Log (v : list LogItem) (c : ServiceClient) : ServiceClient :=
  {| Log := v; instances := instances c; instancePool := instancePool c;
     muxChan := muxChan c; retryTimeout := retryTimeout c;
     giveupTimeout := giveupTimeout c; heap := heap c;
     closedClients := closedClients c; uuids := uuids c; dials := dials c;
     wire := wire c |}.

Definition set_instances (v : gmap string ptr) (c : ServiceClient) : ServiceClient :=
  {| Log := Log c; instances := v; instancePool := instancePool c;
     muxChan := muxChan c; retryTimeout := retryTimeout c;
     giveupTimeout := giveupTimeout c; heap := heap c;
     closedClients := closedClients c; uuids := uuids c; dials := dials c;
     wire := wire c |}.

Definition set_instancePool (v : list ptr) (c : ServiceClient) : ServiceClient :=
  {| Log := Log c; instances := instances c; instancePool := v;
     muxChan := muxChan c; retryTimeout := retryTimeout c;
     giveupTimeout := giveupTimeout c; heap := heap c;
     closedClients := closedClients c; uuids := uuids c; dials := dials c;
     wire := wire c |}.

Definition set_muxChan (v : list timeoutLengths) (c : ServiceClient) : ServiceClient :=
  {| Log := Log c; instances := instances c; instancePool := instancePool c;
     muxChan := v; retryTimeout := retryTimeout c;
     giveupTimeout := giveupTimeout c; heap := heap c;
     closedClients := closedClients c; uuids := uuids c; dials := dials c;
     wire := wire c |}.

Definition set_heap (v : list servicePool) (c : ServiceClient) : ServiceClient :=
  {| Log := Log c; instances := instances c; instancePool := instancePool c;
     muxChan := muxChan c; retryTimeout := retryTimeout c;
     giveupTimeout := giveupTimeout c; heap := v;
     closedClients := closedClients c; uuids := uuids c; dials := dials c;
     wire := wire c |}.

Definition set_closedClients (v : gset nat) (c : ServiceClient) : ServiceClient :=
  {| Log := Log c; instances := instances c; instancePool := instancePool c;
     muxChan := muxChan c; retryTimeout := retryTimeout c;
     giveupTimeout := giveupTimeout c; heap := heap c;
     closedClients := v; uuids := uuids c; dials := dials c;
     wire := wire c |}.

Definition set_uuids (v : N) (c : ServiceClient) : ServiceClient :=
  {| Log := Log c; instances := instances c; instancePool := instancePool c;
     muxChan := muxChan c; retryTimeout := retryTimeout c;
     giveupTimeout := giveupTimeout c; heap := heap c;
     closedClients := closedClients c; uuids := v; dials := dials c;
     wire := wire c |}.

Definition set_dials (v : nat) (c : ServiceClient) : ServiceClient :=
  {| Log := Log c; instances := instances c; instancePool := instancePool c;
     muxChan := muxChan c; retryTimeout := retryTimeout c;
     giveupTimeout := giveupTimeout c; heap := heap c;
     closedClients := closedClients c; uuids := uuids c; dials := v;
     wire := wire c |}.

Definition set_wire (v : list WireCall) (c : ServiceClient) : ServiceClient :=
  {| Log := Log c; instances := instances c; instancePool := instancePool c;
     muxChan := muxChan c; retryTimeout := retryTimeout c;
     giveupTimeout := giveupTimeout c; heap := heap c;
     closedClients := closedClients c; uuids := uuids c; dials := dials c;
     wire := v |}.

(** [newServiceClient]: an empty map, an empty instance pool, nobody parked
    on [muxChan], and the two timeouts at the zero value of
    [time.Duration].  [h] is the arena as the parent client has it. *)
Definition newServiceClient (h : list servicePool) : ServiceClient :=
  {| Log := []; instances := ∅; instancePool := []; muxChan := [];
     retryTimeout := 0; giveupTimeout := 0; heap := h;
     closedClients := ∅; uuids := 0%N; dials := 0; wire := [] |}.

(** [IsClosed] through a [*servicePool]. *)
Definition ptr_IsClosed (c : ServiceClient) (p : ptr) : bool :=
  match heap c !! p with
  | Some sp => IsClosed sp
  | None => false
  end.

(** Modelled from the spec: [Client.getServicePool] is not part of this
    file.  The parent client "supplies, for a newly discovered instance
    descriptor, a ready-to-use Instance Entry (address key + its private
    connection pool)": a new object in the arena, not closed, with no idle
    connection yet. *)
Definition getServicePool (s : Service) (c : ServiceClient) : ptr * ServiceClient :=
  (length (heap c),
   set_heap (heap c ++ [{| sp_service := s; sp_pool := []; sp_closed := false |}]) c).

(** [func (c *ServiceClient) addInstanceMux(instance *service.Service)] *)
Definition addInstanceMux (instance : Service) (c : ServiceClient) : ServiceClient :=
  let key := ServiceAddr instance in
  match instances c !! key with
  | Some _ => c
  | None =>
      let '(sp, c) := getServicePool instance c in
      let c := set_instances (<[key := sp]> (instances c)) c in
      let c := set_instancePool
                 (pools.Release (ptr_IsClosed c) (instances c !! key) (instancePool c)) c in
      set_Log (Log c ++ [ServiceDiscovered instance]) c
  end.

(** [func (c *ServiceClient) removeInstanceMux(instance *service.Service)] *)
Definition removeInstanceMux (instance : Service) (c : ServiceClient) : ServiceClient :=
  let key := ServiceAddr instance in
  match instances c !! key with
  | None => c
  | Some sp =>
      let c := set_heap (alter Close sp (heap c)) c in
      let c := set_instances (delete key (instances c)) c in
      set_Log (Log c ++ [ServiceRemoved instance]) c
  end.

Inductive NotificationType : Type :=
  | InstanceAddNotification
  | InstanceUpdateNotification
  | InstanceRemoveNotification.

Record InstanceNotification := {
  Type_ : NotificationType;
  Service_ : Service;
}.

(** The body of [for _, n := range ns] in [mux]. *)
Definition notify (c : ServiceClient) (n : InstanceNotification) : ServiceClient :=
  match Type_ n with
  | InstanceAddNotification | InstanceUpdateNotification =>
      if Registered (Service_ n)
      then addInstanceMux (Service_ n) c
      else removeInstanceMux (Service_ n) c
  | InstanceRemoveNotification => removeInstanceMux (Service_ n) c
  end.

(** The cases of the [select] in [mux]: a batch arrives on
    [NotificationChan], or a reader takes the pair offered on [timeoutChan].
    There is no case that receives from [muxChan]. *)
Inductive mux_event : Type :=
  | NotificationChan (ns : list InstanceNotification)
  | timeoutChan.

(** The value [mux] offers on [timeoutChan]. *)
Definition offered (c : ServiceClient) : timeoutLengths :=
  {| retry := retryTimeout c; giveup := giveupTimeout c |}.

(** One turn of the [for { select { ... } }] of [mux]. *)
Definition mux_select (c : ServiceClient) (ev : mux_event) : ServiceClient :=
  match ev with
  | NotificationChan ns => foldl notify c ns
  | timeoutChan => c
  end.

(** [func (c *ServiceClient) mux()], on the events it is given. *)
Definition mux (evs : list mux_event) (c : ServiceClient) : ServiceClient :=
  foldl mux_select c evs.

(** [func (c *ServiceClient) SetTimeout(retry, giveup time.Duration)]: the
    caller parks on [muxChan] with its pair, and returns when a receiver takes
    it. *)
Definition SetTimeout (retry giveup : Z) (c : ServiceClient) : ServiceClient :=
  set_muxChan (muxChan c ++ [{| retry := retry; giveup := giveup |}]) c.

(** [func (c *ServiceClient) GetTimeout() (retry, giveup time.Duration)] *)
Definition GetTimeout (c : ServiceClient) : Z * Z :=
  let tls := offered c in
  (retry tls, giveup tls).

(** ** The dispatch engine *)

(** [type sendAttempt struct { result []byte; err error }] *)
Record sendAttempt := {
  result : bytes;
  err : option error;
}.

(** Modelled from the spec: the declaration of [ErrRequestTimeout] is not
    part of this file; it is the "request-timeout error", a plain error value
    of the package. *)
Definition ErrRequestTimeout : error := errorString "request timeout".

(** Modelled from the spec: the methods of [ServiceResource] are not part of
    this file.  "Transport-level failures discard their Connection Resource
    (mark closed) so it is evicted from the pool rather than reused." *)
Definition sr_Close (sr : ServiceResource) (c : ServiceClient) : ServiceClient :=
  set_closedClients ({[rpcClient sr]} ∪ closedClients c) c.

Definition sr_IsClosed (c : ServiceClient) (sr : ServiceResource) : bool :=
  bool_decide (rpcClient sr ∈ closedClients c).

Definition with_pool (idle : list ServiceResource) (sp : servicePool) : servicePool :=
  {| sp_service := sp_service sp; sp_pool := idle; sp_closed := sp_closed sp |}.

(** The calls an attempt has deferred, the latest first. *)
Inductive deferred : Type :=
  | instancePool_Release (sp : ptr)
  | pool_Release (sp : ptr) (r : option ServiceResource).

(** [c.instancePool.Release(sp)] and [sp.pool.Release(r)], run at exit. *)
Definition run_deferred (c : ServiceClient) (d : deferred) : ServiceClient :=
  match d with
  | instancePool_Release sp =>
      set_instancePool (pools.Release (ptr_IsClosed c) (Some sp) (instancePool c)) c
  | pool_Release sp r =>
      set_heap
        (alter (λ e, with_pool (pools.Release (sr_IsClosed c) r (sp_pool e)) e) sp (heap c)) c
  end.

(** How far an attempt gets: parked inside an [Acquire], stopped by a panic,
    or at the push of its result on the attempts channel. *)
Inductive attempt_status : Type :=
  | Parked (defers : list deferred) (c : ServiceClient)
  | Panicked (c : ServiceClient)
  | Pushing (a : sendAttempt) (defers : list deferred) (c : ServiceClient).

(** The arguments of one [go c.attemptSend(attempts, ri, fn, in, out)]. *)
Record goroutine (I : Type) := {
  g_ri : option skynet.RequestInfo;
  g_fn : string;
  g_in : I;
}.
Arguments g_ri {I} g.
Arguments g_fn {I} g.
Arguments g_in {I} g.

(** The locals of [send]: the named result [err], what [out] points to, and
    the attempts launched so far. *)
Record send_state (I O : Type) := {
  s_err : option error;
  s_out : O;
  s_spawned : list (goroutine I);
}.
Arguments s_err {I O} s.
Arguments s_out {I O} s.
Arguments s_spawned {I O} s.

(** The channels [send] selects on. *)
Inductive send_event : Type :=
  | ticker
  | timeout
  | attempts (attempt : sendAttempt).

(** [Selecting]: back at the [select]; [Returned]: [send] returned, with
    [s_err] its result; [NotReady]: the event names a nil channel, which is
    never ready. *)
Inductive send_status (I O : Type) : Type :=
  | Selecting (st : send_state I O)
  | Returned (st : send_state I O)
  | NotReady.
Arguments Selecting {I O} st.
Arguments Returned {I O} st.
Arguments NotReady {I O}.

(** [if requestInfo == nil { requestInfo = &skynet.RequestInfo{RequestID:
    skynet.UUID()} }], the first statement of [sendToInstance]. *)
Definition orFresh (requestInfo : option skynet.RequestInfo) (c : ServiceClient)
  : skynet.RequestInfo * ServiceClient :=
  match requestInfo with
  | Some ri => (ri, c)
  | None =>
      let '(id, g) := UUID (uuids c) in
      ({| RequestID := id |}, set_uuids g c)
  end.

(** The error the loop of [send] has seen last on the attempts channel. *)
Fixpoint last_recorded (acc : option error) (evs : list send_event) : option error :=
  match evs with
  | [] => acc
  | attempts a :: evs => last_recorded (err a) evs
  | _ :: evs => last_recorded acc evs
  end.

(** The addresses of the entries held by the instance pool, and of those among
    them that are not closed. *)
Definition pool_addresses (c : ServiceClient) : gset string :=
  list_to_set (omap (λ p, (λ e, ServiceAddr (sp_service e)) <$> heap c !! p)
                 (instancePool c)).

Definition live_pool_addresses (c : ServiceClient) : gset string :=
  list_to_set (omap (λ p, (λ e, ServiceAddr (sp_service e)) <$> heap c !! p)
                 (filter (λ p, ptr_IsClosed c p = false) (instancePool c))).

(** The state of an attempt that holds entry [sp] and has asked its pool
    for a connection. *)
Definition leased (sp : ptr) (e : servicePool) (idle : list ptr)
    (idle' : list ServiceResource) (c : ServiceClient) : ServiceClient :=
  set_dials (S (dials c))
    (set_heap (<[sp := with_pool idle' e]> (heap c)) (set_instancePool idle c)).

(** The identifiers of the requests that went out, in order. *)
Definition wire_ids (c : ServiceClient) : list string :=
  (λ w, RequestID (RequestInfo (wc_in w))) <$> wire c.

(** An attempt result the loop decodes: no error, or a [serviceError]. *)
Definition decoded (a : sendAttempt) : Prop :=
  err a = None ∨ ∃ e, err a = Some (serviceError e).

(** The attempts a call of [send] has launched, wherever it stands. *)
Definition spawned_of {I O : Type} (r : send_status I O) : list (goroutine I) :=
  match r with
  | Selecting st | Returned st => s_spawned st
  | NotReady => []
  end.

Section Engine.
Context {I O : Type}.
(** [bson.Marshal(in)] *)
Variable Marshal : I → bytes * option error.
(** [bson.Unmarshal(attempt.result, out)]: what [out] points to afterwards,
    and the error. *)
Variable Unmarshal : bytes → O → O * option error.
(** [sr.rpcClient.Call(method, sin, &sout)], the n-th call on the wire:
    what is left in [sout], and the error of the call. *)
Variable Call : nat → nat → string → ServiceRPCIn → ServiceRPCOut * option error.
(** The creation function of an instance's connection pool at the n-th
    acquisition: a connection, an error, or nothing to hand out yet. *)
Variable connectionFactory : Service → nat → option (ServiceResource + error).

(** [func (c *ServiceClient) sendToInstance(sr, requestInfo, funcName, in)
    (result []byte, err error)] *)
Definition sendToInstance (sr : ServiceResource) (requestInfo : option skynet.RequestInfo)
    (funcName : string) (inp : I) (c : ServiceClient)
  : bytes * option error * ServiceClient :=
  let '(requestInfo, c) := orFresh requestInfo c in
  match Marshal inp with
  | (_, Some e) => ([], Some e, c)
  | (b, None) =>
      let sin := {| RequestInfo := requestInfo; Method := funcName; In := b |} in
      let method := Name (sr_service sr) +:+ ".Forward" in
      let '(sout, err) := Call (length (wire c)) (rpcClient sr) method sin in
      let c := set_wire
                 (wire c ++ [{| wc_client := rpcClient sr; wc_method := method;
                                wc_in := sin |}]) c in
      let c := match err with
               | Some e => set_Log (Log c ++ [LogError e]) (sr_Close sr c)
               | None => c
               end in
      let err := match Err sout with
                 | Some e => Some (serviceError e)
                 | None => err
                 end in
      (Out sout, err, c)
  end.

(** [attemptSend] from the return of [c.instancePool.Acquire()] on: the
    error of that call is dropped ([spr, _ :=]), and the type assertion
    of [spr] to a servicePool pointer panics on a nil [spr]. *)
Definition attemptSend_from (spr : pools.acquired ptr) (ri : option skynet.RequestInfo)
    (fn : string) (inp : I) (c : ServiceClient) : attempt_status :=
  match spr with
  | pools.AcquireBlocks => Parked [] c
  | pools.AcquireError _ => Panicked c
  | pools.Acquired sp =>
      match heap c !! sp with
      | None => Panicked c
      | Some e =>
          let '(r, idle) :=
            pools.Acquire (sr_IsClosed c) (connectionFactory (sp_service e) (dials c))
              (sp_pool e) in
          let c := set_dials (S (dials c))
                     (set_heap (<[sp := with_pool idle e]> (heap c)) c) in
          match r with
          | pools.AcquireBlocks => Parked [instancePool_Release sp] c
          | pools.AcquireError err =>
              Pushing {| result := []; err := Some err |}
                [pool_Release sp None; instancePool_Release sp]
                (set_Log (Log c ++ [LogError err]) c)
          | pools.Acquired sr =>
              let '(result, err, c) := sendToInstance sr ri fn inp c in
              Pushing {| result := result; err := err |}
                [pool_Release sp (Some sr); instancePool_Release sp] c
          end
      end
  end.

(** [func (c *ServiceClient) attemptSend(attempts, ri, fn, in, out)], up to
    the push on [attempts]. *)
Definition attemptSend (ri : option skynet.RequestInfo) (fn : string) (inp : I)
    (c : ServiceClient) : attempt_status :=
  let '(spr, idle) := pools.Acquire (ptr_IsClosed c) None (instancePool c) in
  attemptSend_from spr ri fn inp (set_instancePool idle c).

(** The deferred calls of an attempt whose push was received. *)
Definition attempt_exit (defers : list deferred) (c : ServiceClient) : ServiceClient :=
  foldl run_deferred c defers.

(** A whole attempt: the result it pushed and the state it leaves, when it
    gets that far. *)
Definition attempt_run (ri : option skynet.RequestInfo) (fn : string) (inp : I)
    (c : ServiceClient) : option (sendAttempt * ServiceClient) :=
  match attemptSend ri fn inp c with
  | Pushing a defers c => Some (a, attempt_exit defers c)
  | _ => None
  end.

(** [go c.attemptSend(attempts, ri, fn, in, out)] *)
Definition spawn (g : goroutine I) (st : send_state I O) : send_state I O :=
  {| s_err := s_err st; s_out := s_out st; s_spawned := s_spawned st ++ [g] |}.

(** [err = bson.Unmarshal(attempt.result, out); return] *)
Definition decode (attempt : sendAttempt) (st : send_state I O) : send_status I O :=
  let '(out, e) := Unmarshal (result attempt) (s_out st) in
  Returned {| s_err := e; s_out := out; s_spawned := s_spawned st |}.

(** One turn of the [for { select { ... } }] of [send]. *)
Definition send_select (retry giveup : Z) (g : goroutine I) (st : send_state I O)
    (ev : send_event) : send_status I O :=
  match ev with
  | ticker =>
      if (0 <? retry)%Z then Selecting (spawn g st) else NotReady
  | timeout =>
      if (0 <? giveup)%Z then
        Returned {| s_err := match s_err st with
                             | None => Some ErrRequestTimeout
                             | Some e => Some e
                             end;
                    s_out := s_out st; s_spawned := s_spawned st |}
      else NotReady
  | attempts attempt =>
      let st := {| s_err := err attempt; s_out := s_out st;
                   s_spawned := s_spawned st |} in
      match s_err st with
      | Some e =>
          if is_serviceError e then decode attempt st
          else if (giveup =? 0)%Z then Returned st
          else Selecting st
      | None => decode attempt st
      end
  end.

Fixpoint send_loop (retry giveup : Z) (g : goroutine I) (st : send_state I O)
    (evs : list send_event) : send_status I O :=
  match evs with
  | [] => Selecting st
  | ev :: evs =>
      match send_select retry giveup g st ev with
      | Selecting st => send_loop retry giveup g st evs
      | r => r
      end
  end.

(** [func (c *ServiceClient) send(retry, giveup, ri, fn, in, out) (err error)],
    on the events its channels deliver. *)
Definition send (retry giveup : Z) (ri : option skynet.RequestInfo) (fn : string) (inp : I)
    (out : O) (evs : list send_event) : send_status I O :=
  let g := {| g_ri := ri; g_fn := fn; g_in := inp |} in
  send_loop retry giveup g {| s_err := None; s_out := out; s_spawned := [g] |} evs.

(** [func (c *ServiceClient) Send(ri, fn, in, out) (err error)] *)
Definition Send (c : ServiceClient) (ri : option skynet.RequestInfo) (fn : string) (inp : I)
    (out : O) (evs : list send_event) : send_status I O :=
  let '(retry, giveup) := GetTimeout c in
  send retry giveup ri fn inp out evs.

(** [func (c *ServiceClient) SendOnce(ri, fn, in, out) (err error)] *)
Definition SendOnce (c : ServiceClient) (ri : option skynet.RequestInfo) (fn : string) (inp : I)
    (out : O) (evs : list send_event) : send_status I O :=
  let '(_, giveup) := GetTimeout c in
  send 0 giveup ri fn inp out evs.
End Engine.

(** ** Concrete collaborators and states, for the examples *)

(** A codec that copies the bytes, a transport that echoes its input, one
    that always fails, and creation functions that hand out connection [n] at
    the n-th acquisition or fail. *)
Definition copyMarshal (b : bytes) : bytes * option error := (b, None).
Definition copyUnmarshal (b : bytes) (_ : bytes) : bytes * option error := (b, None).

Definition echoCall (_ : nat) (_ : nat) (_ : string) (sin : ServiceRPCIn)
  : ServiceRPCOut * option error :=
  ({| Out := In sin; Err := None |}, None).

Definition resetCall (_ : nat) (_ : nat) (_ : string) (_ : ServiceRPCIn)
  : ServiceRPCOut * option error :=
  ({| Out := []; Err := None |}, Some (errorString "connection reset")).

Definition dialOK (s : Service) (n : nat) : option (ServiceResource + error) :=
  Some (inl {| rpcClient := n; sr_service := s |}).

Definition dialRefused (_ : Service) (_ : nat) : option (ServiceResource + error) :=
  Some (inr (errorString "connection refused")).

Definition svcA (registered : bool) : Service :=
  {| ServiceAddr := "10.0.0.1:9000"; Name := "TestService"; Registered := registered |}.

Definition added (s : Service) : InstanceNotification :=
  {| Type_ := InstanceAddNotification; Service_ := s |}.

Definition removed (s : Service) : InstanceNotification :=
  {| Type_ := InstanceRemoveNotification; Service_ := s |}.

(** A client that has heard of one instance. *)
Definition oneInstance : ServiceClient :=
  mux [NotificationChan [added (svcA true)]] (newServiceClient []).

(** The same client after the instance was removed again. *)
Definition addedThenRemoved : ServiceClient :=
  mux [NotificationChan [added (svcA true); removed (svcA true)]] (newServiceClient []).

Definition connA (n : nat) : ServiceResource :=
  {| rpcClient := n; sr_service := svcA true |}.

Definition resetError : sendAttempt :=
  {| result := []; err := Some (errorString "connection reset") |}.

Definition remoteError : sendAttempt :=
  {| result := [Byte.x78]; err := Some (serviceError (errorString "no such method")) |}.

Definition testGoroutine : goroutine bytes :=
  {| g_ri := None; g_fn := "Echo"; g_in := [] |}.

Definition testState : send_state bytes bytes :=
  {| s_err := None; s_out := []; s_spawned := [testGoroutine] |}.

(** ** The file collector, and notions for the further properties *)

(** [type instanceFileCollector struct { files []string }] *)
Record instanceFileCollector := {
  files : list string;
}.

(** [func (ic *instanceFileCollector) VisitDir(path string, f *doozer.FileInfo) bool];
    neither method looks at [f]. *)
Definition VisitDir (path : string) (ic : instanceFileCollector)
  : bool * instanceFileCollector :=
  (true, ic).

(** [func (ic *instanceFileCollector) VisitFile(path string, f *doozer.FileInfo)] *)
Definition VisitFile (path : string) (ic : instanceFileCollector) : instanceFileCollector :=
  {| files := files ic ++ [path] |}.

(** The calls a walk makes on the collector. *)
Inductive visit : Type :=
  | visit_dir (path : string)
  | visit_file (path : string).

Definition visit_step (ic : instanceFileCollector) (v : visit) : instanceFileCollector :=
  match v with
  | visit_dir path => (VisitDir path ic).2
  | visit_file path => VisitFile path ic
  end.

Definition visited_files (vs : list visit) : list string :=
  omap (λ v, match v with visit_file path => Some path | visit_dir _ => None end) vs.

(** The notifications the actor receives, batch after batch. *)
Fixpoint notifications (evs : list mux_event) : list InstanceNotification :=
  match evs with
  | [] => []
  | NotificationChan ns :: evs => ns ++ notifications evs
  | timeoutChan :: evs => notifications evs
  end.

(** The notifications that lead to [addInstanceMux]. *)
Definition registers (n : InstanceNotification) : bool :=
  match Type_ n with
  | InstanceRemoveNotification => false
  | InstanceAddNotification | InstanceUpdateNotification => Registered (Service_ n)
  end.

(** The notifications of a list that name address [k]. *)
Definition about (k : string) (ns : list InstanceNotification) : list InstanceNotification :=
  filter (λ n, ServiceAddr (Service_ n) = k) ns.

Definition is_discovered (i : LogItem) : bool :=
  match i with ServiceDiscovered _ => true | _ => false end.

Definition is_removed (i : LogItem) : bool :=
  match i with ServiceRemoved _ => true | _ => false end.

Fixpoint count_log (p : LogItem → bool) (l : list LogItem) : nat :=
  match l with
  | [] => 0
  | i :: l => (if p i then 1 else 0) + count_log p l
  end.

(** What stays of an entry of the arena: its service, and its closed flag
    once it is set. *)
Definition entry_kept (e e' : servicePool) : Prop :=
  sp_service e' = sp_service e ∧ (sp_closed e = true → sp_closed e' = true).

(** The ticks among the events of [send]. *)
Fixpoint ticks (evs : list send_event) : nat :=
  match evs with
  | [] => 0
  | ticker :: evs => S (ticks evs)
  | _ :: evs => ticks evs
  end.

Definition is_attempt (ev : send_event) : bool :=
  match ev with attempts _ => true | _ => false end.

(** An attempt result whose error is not a [serviceError]. *)
Definition failed (a : sendAttempt) : Prop :=
  ∃ e, err a = Some e ∧ is_serviceError e = false.

(** The state an attempt leaves: where it is parked or stopped, or after its
    deferred calls when its push was received. *)
Definition settled (s : attempt_status) : ServiceClient :=
  match s with
  | Parked _ c | Panicked c => c
  | Pushing _ defers c => attempt_exit defers c
  end.

(** What the registry shows of an entry. *)
Definition entry_view (e : servicePool) : Service * bool := (sp_service e, sp_closed e).

(** The registry is kept from [c] to [c']: the map, the timeouts, the senders
    parked on [muxChan], and the service and the closed flag of every entry
    of the arena are the same. *)
Definition registry_kept (c c' : ServiceClient) : Prop :=
  instances c' = instances c
  ∧ retryTimeout c' = retryTimeout c
  ∧ giveupTimeout c' = giveupTimeout c
  ∧ muxChan c' = muxChan c
  ∧ ∀ p, entry_view <$> heap c' !! p = entry_view <$> heap c !! p.

(** The transport has seen at most one call more from [c] to [c'], nothing
    that went out or was logged is lost, no closed connection is open
    again, and an identifier was drawn only for a nil [ri]. *)
Definition one_call_at_most (ri : option skynet.RequestInfo) (c c' : ServiceClient) : Prop :=
  wire c `prefix_of` wire c'
  ∧ length (wire c') ≤ S (length (wire c))
  ∧ (uuids c' = uuids c ∨ (ri = None ∧ uuids c' = N.succ (uuids c)))
  ∧ closedClients c ⊆ closedClients c'
  ∧ Log c `prefix_of` Log c'.

(** What happens to a client between its creation and a call of [Send]: turns
    of the actor, calls of [SetTimeout], attempts of other calls. *)
Inductive client_op (I : Type) : Type :=
  | op_mux (ev : mux_event)
  | op_SetTimeout (retry giveup : Z)
  | op_attempt (ri : option skynet.RequestInfo) (fn : string) (inp : I).
Arguments op_mux {I} ev.
Arguments op_SetTimeout {I} retry giveup.
Arguments op_attempt {I} ri fn inp.

Section History.
Context {I : Type}.
Variable Marshal : I → bytes * option error.
Variable Call : nat → nat → string → ServiceRPCIn → ServiceRPCOut * option error.
Variable connectionFactory : Service → nat → option (ServiceResource + error).

Definition apply_op (c : ServiceClient) (op : client_op I) : ServiceClient :=
  match op with
  | op_mux ev => mux_select c ev
  | op_SetTimeout retry giveup => SetTimeout retry giveup c
  | op_attempt ri fn inp => settled (attemptSend Marshal Call connectionFactory ri fn inp c)
  end.

Definition history (ops : list (client_op I)) (c : ServiceClient) : ServiceClient :=
  foldl apply_op c ops.
End History.

(** ** The actor and the attempts of concurrent calls, interleaved *)

(** The state and the deferred calls of an attempt where it stands. *)
Definition status_state (s : attempt_status) : ServiceClient :=
  match s with
  | Parked _ c | Panicked c | Pushing _ _ c => c
  end.

Definition status_defers (s : attempt_status) : list deferred :=
  match s with
  | Parked defers _ | Pushing _ defers _ => defers
  | Panicked _ => []
  end.

(** The entries an attempt has leased: those it has deferred to release into
    the instance pool. *)
Definition held (defers : list deferred) : list ptr :=
  omap (λ d, match d with
             | instancePool_Release sp => Some sp
             | pool_Release _ _ => None
             end) defers.

(** An attempt in flight: the arguments of its goroutine, the calls it has
    deferred, and the result it is pushing on the attempts channel when it
    got that far. *)
Record flight (I : Type) := {
  f_args : goroutine I;
  f_defers : list deferred;
  f_pushing : option sendAttempt;
}.
Arguments f_args {I} f.
Arguments f_defers {I} f.
Arguments f_pushing {I} f.

(** A goroutine that panicked is gone. *)
Definition in_flight {I : Type} (g : goroutine I) (s : attempt_status) : list (flight I) :=
  match s with
  | Parked defers _ => [{| f_args := g; f_defers := defers; f_pushing := None |}]
  | Pushing a defers _ => [{| f_args := g; f_defers := defers; f_pushing := Some a |}]
  | Panicked _ => []
  end.

(** The entries lent to the attempts in flight. *)
Definition lent {I : Type} (fs : list (flight I)) : list ptr :=
  fs ≫= λ f, held (f_defers f).

(** What can happen next: a turn of the actor, a call of [SetTimeout], the
    start of an attempt of some call of [Send] or [SendOnce], a parked
    attempt that tries its [Acquire] again, a push that is received. *)
Inductive step (I : Type) : Type :=
  | actor_turn (ev : mux_event)
  | SetTimeout_call (retry giveup : Z)
  | attempt_starts (g : goroutine I)
  | attempt_resumes (i : nat)
  | push_received (i : nat).
Arguments actor_turn {I} ev.
Arguments SetTimeout_call {I} retry giveup.
Arguments attempt_starts {I} g.
Arguments attempt_resumes {I} i.
Arguments push_received {I} i.

(** The entries among [owned] that are not closed, by address. *)
Definition open_addresses (c : ServiceClient) (owned : list ptr) : gset string :=
  list_to_set (omap (λ p, (λ e, ServiceAddr (sp_service e)) <$> heap c !! p)
                 (filter (λ p, ptr_IsClosed c p = false) owned)).

(** What holds of the map and of the entries [owned] by the instance pool or
    by an attempt, between any two steps: a key of the map points to an open
    entry of that address among them; an open entry among them is the one
    the map has for its address; none is there twice. *)
Definition fleet_inv (c : ServiceClient) (owned : list ptr) : Prop :=
  (∀ k p, instances c !! k = Some p →
     ∃ e, heap c !! p = Some e ∧ sp_closed e = false
          ∧ ServiceAddr (sp_service e) = k ∧ p ∈ owned)
  ∧ (∀ p, p ∈ owned →
       ∃ e, heap c !! p = Some e
            ∧ (sp_closed e = false → instances c !! ServiceAddr (sp_service e) = Some p))
  ∧ NoDup owned.

Section System.
Context {I : Type}.
Variable Marshal : I → bytes * option error.
Variable Call : nat → nat → string → ServiceRPCIn → ServiceRPCOut * option error.
Variable connectionFactory : Service → nat → option (ServiceResource + error).

(** A parked attempt tries again: [c.instancePool.Acquire()] when it holds
    nothing, [sp.pool.Acquire()] when it holds [sp]; an attempt that is
    pushing stays where it is. *)
Definition resume (f : flight I) (c : ServiceClient) : attempt_status :=
  match f_pushing f with
  | Some a => Pushing a (f_defers f) c
  | None =>
      match f_defers f with
      | [] =>
          attemptSend Marshal Call connectionFactory
            (g_ri (f_args f)) (g_fn (f_args f)) (g_in (f_args f)) c
      | [instancePool_Release sp] =>
          attemptSend_from Marshal Call connectionFactory (pools.Acquired sp)
            (g_ri (f_args f)) (g_fn (f_args f)) (g_in (f_args f)) c
      | defers => Parked defers c
      end
  end.

Definition system_step (s : ServiceClient * list (flight I)) (st : step I)
  : ServiceClient * list (flight I) :=
  match st with
  | actor_turn ev => (mux_select s.1 ev, s.2)
  | SetTimeout_call retry giveup => (SetTimeout retry giveup s.1, s.2)
  | attempt_starts g =>
      let a := attemptSend Marshal Call connectionFactory (g_ri g) (g_fn g) (g_in g) s.1 in
      (status_state a, s.2 ++ in_flight g a)
  | attempt_resumes i =>
      match s.2 !! i with
      | Some f =>
          let a := resume f s.1 in
          (status_state a, take i s.2 ++ in_flight (f_args f) a ++ drop (S i) s.2)
      | None => s
      end
  | push_received i =>
      match s.2 !! i with
      | Some f =>
          match f_pushing f with
          | Some _ => (attempt_exit (f_defers f) s.1, take i s.2 ++ drop (S i) s.2)
          | None => s
          end
      | None => s
      end
  end.

Definition system_run (steps : list (step I)) (s : ServiceClient * list (flight I))
  : ServiceClient * list (flight I) :=
  foldl system_step s steps.
End System.

(** A codec that cannot marshal, and a transport whose replies carry an
    error of the remote method. *)
Definition noMarshal (_ : bytes) : bytes * option error :=
  ([], Some (errorString "cannot marshal")).

Definition refusingCall (_ : nat) (_ : nat) (_ : string) (sin : ServiceRPCIn)
  : ServiceRPCOut * option error :=
  ({| Out := In sin; Err := Some (errorString "no such method") |}, None).

Definition updated (s : Service) : InstanceNotification :=
  {| Type_ := InstanceUpdateNotification; Service_ := s |}.

(** A creation function that has no connection to hand out yet. *)
Definition dialBusy (_ : Service) (_ : nat) : option (ServiceResource + error) := None.

(** The client that has one instance, with one attempt in flight that holds
    the instance and waits for a connection. *)
Definition parkedOnConnection : ServiceClient * list (flight bytes) :=
  system_run copyMarshal echoCall dialBusy [attempt_starts testGoroutine] (oneInstance, []).

(** A connection that is refused, as it reaches the loop of [send]. *)
Definition refusedError : sendAttempt :=
  {| result := []; err := Some (errorString "connection refused") |}.

(** The locals of a [send] that has recorded a connection reset, and of one
    that has decoded one byte. *)
Definition resetState : send_state bytes bytes :=
  {| s_err := Some (errorString "connection reset"); s_out := [];
     s_spawned := [testGoroutine] |}.

Definition decodedState : send_state bytes bytes :=
  {| s_err := None; s_out := [Byte.x78]; s_spawned := [testGoroutine] |}.



(** ** The registry actor and the timeouts *)

Lemma notify_timeouts (c : ServiceClient) (n : InstanceNotification) :
  retryTimeout (notify c n) = retryTimeout c
  ∧ giveupTimeout (notify c n) = giveupTimeout c
  ∧ muxChan (notify c n) = muxChan c.
Proof.
  unfold notify, addInstanceMux, removeInstanceMux.
  destruct (Type_ n), (Registered (Service_ n)),
    (instances c !! ServiceAddr (Service_ n)); done.
Qed.

Lemma mux_select_timeouts (c : ServiceClient) (ev : mux_event) :
  retryTimeout (mux_select c ev) = retryTimeout c
  ∧ giveupTimeout (mux_select c ev) = giveupTimeout c
  ∧ muxChan (mux_select c ev) = muxChan c.
Proof.
  destruct ev as [ns|]; [|done]. simpl.
  revert c. induction ns as [|n ns IH]; intros c; [done|]. simpl.
  destruct (IH (notify c n)) as (-> & -> & ->). apply notify_timeouts.
Qed.

Lemma mux_timeouts (evs : list mux_event) (c : ServiceClient) :
  retryTimeout (mux evs c) = retryTimeout c
  ∧ giveupTimeout (mux evs c) = giveupTimeout c
  ∧ muxChan (mux evs c) = muxChan c.
Proof.
  unfold mux. revert c. induction evs as [|ev evs IH]; intros c; [done|]. simpl.
  destruct (IH (mux_select c ev)) as (-> & -> & ->). apply mux_select_timeouts.
Qed.

(** Whatever pair a caller of [SetTimeout] is parked with, the turns of the
    actor leave it parked and offer the pair they offered before. *)
Lemma SetTimeout_not_stored (retry giveup : Z) (evs : list mux_event) (c : ServiceClient) :
  GetTimeout (mux evs (SetTimeout retry giveup c)) = GetTimeout c
  ∧ muxChan (mux evs (SetTimeout retry giveup c))
    = muxChan c ++ [{| retry := retry; giveup := giveup |}].
Proof.
  destruct (mux_timeouts evs (SetTimeout retry giveup c)) as (Hr & Hg & Hm).
  unfold GetTimeout, offered. simpl. by rewrite Hr, Hg, Hm.
Qed.

(** C1, on the code: after [SetTimeout(5, 7)] on a new client, whatever the
    actor does next, [GetTimeout] still returns the zero pair and the caller
    of [SetTimeout] is still parked on [muxChan]: no case of the [select] in
    [mux] receives from that channel, so the pair is never stored. *)
Theorem SetTimeout_is_never_received (h : list servicePool) (evs : list mux_event) :
  GetTimeout (mux evs (SetTimeout 5 7 (newServiceClient h))) = (0%Z, 0%Z)
  ∧ GetTimeout (mux evs (SetTimeout 5 7 (newServiceClient h))) ≠ (5%Z, 7%Z)
  ∧ muxChan (mux evs (SetTimeout 5 7 (newServiceClient h)))
    = [{| retry := 5; giveup := 7 |}].
Proof.
  destruct (SetTimeout_not_stored 5 7 evs (newServiceClient h)) as [-> ->].
  split; [done|]. split; [intros [=]|done].
Qed.

(** A registered Add or Update for an unknown address. *)
Lemma addInstanceMux_new (s : Service) (c : ServiceClient) :
  instances c !! ServiceAddr s = None →
  addInstanceMux s c
  = set_Log (Log c ++ [ServiceDiscovered s])
      (set_instancePool (instancePool c ++ [length (heap c)])
         (set_instances (<[ServiceAddr s := length (heap c)]> (instances c))
            (set_heap (heap c ++ [{| sp_service := s; sp_pool := []; sp_closed := false |}])
               c))).
Proof.
  intros Hk. unfold addInstanceMux. rewrite Hk. simpl.
  rewrite lookup_insert_eq. simpl. unfold ptr_IsClosed. simpl.
  by rewrite list_lookup_middle.
Qed.

Lemma addInstanceMux_known (s : Service) (c : ServiceClient) :
  is_Some (instances c !! ServiceAddr s) → addInstanceMux s c = c.
Proof. intros [p Hp]. unfold addInstanceMux. by rewrite Hp. Qed.

Lemma removeInstanceMux_known (s : Service) (c : ServiceClient) (sp : ptr) :
  instances c !! ServiceAddr s = Some sp →
  removeInstanceMux s c
  = set_Log (Log c ++ [ServiceRemoved s])
      (set_instances (delete (ServiceAddr s) (instances c))
         (set_heap (alter Close sp (heap c)) c)).
Proof. intros Hk. unfold removeInstanceMux. by rewrite Hk. Qed.

Lemma removeInstanceMux_unknown (s : Service) (c : ServiceClient) :
  instances c !! ServiceAddr s = None → removeInstanceMux s c = c.
Proof. intros Hk. unfold removeInstanceMux. by rewrite Hk. Qed.

(** C4, amended: an Add or Update notification with [Registered] set, for an
    address the map does not have, allocates an open entry for the service,
    puts it in the map under the address and releases it into the instance
    pool, so the map grows by one; for an address the map has, nothing
    changes at all. *)
Theorem notify_registered (c : ServiceClient) (n : InstanceNotification) :
  Type_ n = InstanceAddNotification ∨ Type_ n = InstanceUpdateNotification →
  Registered (Service_ n) = true →
  let key := ServiceAddr (Service_ n) in
  let c' := notify c n in
  (instances c !! key = None →
     instances c' = <[key := length (heap c)]> (instances c)
     ∧ heap c' = heap c ++ [{| sp_service := Service_ n; sp_pool := []; sp_closed := false |}]
     ∧ instancePool c' = instancePool c ++ [length (heap c)]
     ∧ size (instances c') = S (size (instances c)))
  ∧ (is_Some (instances c !! key) → c' = c).
Proof.
  intros Ht Hr key c'.
  assert (c' = addInstanceMux (Service_ n) c) as ->.
  { unfold c', notify. rewrite Hr. by destruct Ht as [-> | ->]. }
  split.
  - intros Hk. rewrite (addInstanceMux_new _ _ Hk). simpl.
    repeat split. by apply map_size_insert_None.
  - apply addInstanceMux_known.
Qed.

(** C8: a Remove notification, or an Update notification with [Registered]
    unset, for an address the map has, closes the entry the map points to, so
    that the instance pool drops it when it is released, and deletes the
    address from the map; for an address the map does not have, nothing
    changes at all. *)
Theorem notify_unregistered (c : ServiceClient) (n : InstanceNotification) :
  Type_ n = InstanceRemoveNotification
  ∨ (Type_ n = InstanceUpdateNotification ∧ Registered (Service_ n) = false) →
  let key := ServiceAddr (Service_ n) in
  let c' := notify c n in
  (∀ sp, instances c !! key = Some sp →
     heap c' = alter Close sp (heap c)
     ∧ instances c' = delete key (instances c)
     ∧ instances c' !! key = None
     ∧ (is_Some (heap c !! sp) →
        ptr_IsClosed c' sp = true
        ∧ ∀ idle, pools.Release (ptr_IsClosed c') (Some sp) idle = idle))
  ∧ (instances c !! key = None → c' = c).
Proof.
  intros Ht key c'.
  assert (c' = removeInstanceMux (Service_ n) c) as ->.
  { unfold c', notify. by destruct Ht as [-> | [-> ->]]. }
  split.
  - intros sp Hk. rewrite (removeInstanceMux_known _ _ _ Hk). simpl.
    split; [done|]. split; [done|]. split; [apply lookup_delete_eq|].
    intros [e He].
    assert (ptr_IsClosed
              (set_Log (Log c ++ [ServiceRemoved (Service_ n)])
                 (set_instances (delete (ServiceAddr (Service_ n)) (instances c))
                    (set_heap (alter Close sp (heap c)) c))) sp = true) as Hcl.
    { unfold ptr_IsClosed. simpl. by rewrite list_lookup_alter_eq, He. }
    split; [done|]. intros idle. simpl. by rewrite Hcl.
  - apply removeInstanceMux_unknown.
Qed.

(** ** The loop of send *)

Section EngineFacts.
Context {I O : Type}.
Variable Unmarshal : bytes → O → O * option error.

Lemma send_loop_app (retry giveup : Z) (g : goroutine I) (st0 st : send_state I O)
    (evs rest : list send_event) :
  send_loop Unmarshal retry giveup g st0 evs = Selecting st →
  send_loop Unmarshal retry giveup g st0 (evs ++ rest)
  = send_loop Unmarshal retry giveup g st rest.
Proof.
  revert st0. induction evs as [|ev evs IH]; intros st0; simpl.
  - by intros [= ->].
  - destruct (send_select Unmarshal retry giveup g st0 ev); [apply IH|done..].
Qed.

Lemma decode_Returned (a : sendAttempt) (st : send_state I O) :
  decode Unmarshal a st
  = Returned {| s_err := (Unmarshal (result a) (s_out st)).2;
                s_out := (Unmarshal (result a) (s_out st)).1;
                s_spawned := s_spawned st |}.
Proof. unfold decode. by destruct (Unmarshal (result a) (s_out st)). Qed.

(** The loop keeps in [err] what the last attempt reported, and does not
    touch [out] before it returns. *)
Lemma send_loop_Selecting (retry giveup : Z) (g : goroutine I) (st0 st : send_state I O)
    (evs : list send_event) :
  send_loop Unmarshal retry giveup g st0 evs = Selecting st →
  s_err st = last_recorded (s_err st0) evs ∧ s_out st = s_out st0.
Proof.
  revert st0. induction evs as [|ev evs IH]; intros st0; simpl.
  - by intros [= ->].
  - destruct ev as [| |a]; simpl.
    + destruct (0 <? retry)%Z; [|done]. intros H. by apply IH in H.
    + by destruct (0 <? giveup)%Z.
    + destruct (err a) as [e|] eqn:He; simpl.
      * destruct (is_serviceError e); [by rewrite decode_Returned|].
        destruct (giveup =? 0)%Z; [done|]. intros H. by apply IH in H.
      * by rewrite decode_Returned.
Qed.

(** C2: an attempt result with an error that is not a [serviceError] ends
    the call with that error when [giveup] is 0, and when [giveup] is
    positive only records it and goes back to the [select], where the rest
    of the events is served. *)
Theorem send_transport_failure (retry giveup : Z) (g : goroutine I)
    (st0 st : send_state I O) (evs rest : list send_event) (a : sendAttempt) (e : error) :
  send_loop Unmarshal retry giveup g st0 evs = Selecting st →
  err a = Some e →
  is_serviceError e = false →
  let st' := {| s_err := Some e; s_out := s_out st; s_spawned := s_spawned st |} in
  (giveup = 0%Z →
     send_loop Unmarshal retry giveup g st0 (evs ++ attempts a :: rest) = Returned st')
  ∧ ((0 < giveup)%Z →
     send_select Unmarshal retry giveup g st (attempts a) = Selecting st'
     ∧ send_loop Unmarshal retry giveup g st0 (evs ++ attempts a :: rest)
       = send_loop Unmarshal retry giveup g st' rest).
Proof.
  intros Hsel Ha He st'.
  assert (Hstep : send_select Unmarshal retry giveup g st (attempts a)
                  = if (giveup =? 0)%Z then Returned st' else Selecting st').
  { simpl. rewrite Ha, He. done. }
  split.
  - intros ->. rewrite (send_loop_app _ _ _ _ _ _ _ Hsel). simpl in *.
    by rewrite Hstep.
  - intros Hpos. rewrite (send_loop_app _ _ _ _ _ _ _ Hsel).
    assert ((giveup =? 0)%Z = false) as Hne by lia.
    rewrite Hne in Hstep. split; [done|].
    change (send_loop Unmarshal retry giveup g st (attempts a :: rest))
      with (match send_select Unmarshal retry giveup g st (attempts a) with
            | Selecting st => send_loop Unmarshal retry giveup g st rest
            | r => r
            end).
    by rewrite Hstep.
Qed.

Lemma send_decodes (retry giveup : Z) (ri : option skynet.RequestInfo) (fn : string)
    (inp : I) (out : O) (st : send_state I O) (evs rest : list send_event)
    (a : sendAttempt) :
  decoded a →
  send Unmarshal retry giveup ri fn inp out evs = Selecting st →
  send Unmarshal retry giveup ri fn inp out (evs ++ attempts a :: rest)
  = Returned {| s_err := (Unmarshal (result a) out).2;
                s_out := (Unmarshal (result a) out).1;
                s_spawned := s_spawned st |}.
Proof.
  unfold send. intros Ha Hsel.
  rewrite (send_loop_app _ _ _ _ _ _ _ Hsel).
  apply send_loop_Selecting in Hsel as [_ Hout]. simpl in Hout.
  simpl. destruct Ha as [Ha|[e Ha]]; rewrite Ha; simpl;
    rewrite decode_Returned; simpl; by rewrite Hout.
Qed.

(** C3: when an attempt result without error, or with a [serviceError],
    arrives while [Send] or [SendOnce] is waiting, the call returns what
    [bson.Unmarshal] of that attempt's bytes into [out] returns, and [out]
    is what the decoder left there; the error of the attempt is gone. *)
Theorem Send_returns_the_decoder_outcome (c : ServiceClient)
    (ri : option skynet.RequestInfo) (fn : string) (inp : I) (out : O)
    (st : send_state I O) (evs rest : list send_event) (a : sendAttempt) :
  decoded a →
  let r := {| s_err := (Unmarshal (result a) out).2;
              s_out := (Unmarshal (result a) out).1;
              s_spawned := s_spawned st |} in
  (Send Unmarshal c ri fn inp out evs = Selecting st →
     Send Unmarshal c ri fn inp out (evs ++ attempts a :: rest) = Returned r)
  ∧ (SendOnce Unmarshal c ri fn inp out evs = Selecting st →
     SendOnce Unmarshal c ri fn inp out (evs ++ attempts a :: rest) = Returned r).
Proof.
  intros Ha r. unfold Send, SendOnce, GetTimeout. simpl.
  split; intros Hsel; by apply send_decodes.
Qed.

(** C5: when the deadline fires while [send] is waiting, the call returns;
    its error is the one of the last attempt result received before, and
    [ErrRequestTimeout] when none was received. *)
Theorem send_deadline (retry giveup : Z) (ri : option skynet.RequestInfo) (fn : string)
    (inp : I) (out : O) (st : send_state I O) (evs rest : list send_event) :
  (0 < giveup)%Z →
  send Unmarshal retry giveup ri fn inp out evs = Selecting st →
  send Unmarshal retry giveup ri fn inp out (evs ++ timeout :: rest)
  = Returned {| s_err := Some (default ErrRequestTimeout (last_recorded None evs));
                s_out := out; s_spawned := s_spawned st |}.
Proof.
  unfold send. intros Hpos Hsel.
  rewrite (send_loop_app _ _ _ _ _ _ _ Hsel).
  apply send_loop_Selecting in Hsel as [Herr Hout]. simpl in Herr, Hout.
  simpl. assert ((0 <? giveup)%Z = true) as -> by lia.
  rewrite Hout, Herr. by destruct (last_recorded None evs).
Qed.
End EngineFacts.

(** ** Attempts *)

Lemma take_idle_open {R : Type} (closed : R → bool) (idle idle' : list R) (r : R) :
  pools.take_idle closed idle = (Some r, idle') → closed r = false.
Proof.
  induction idle as [|x idle IH]; simpl; [done|].
  destruct (closed x) eqn:Hx; [done|]. by intros [= <- _].
Qed.

Lemma Acquire_lazy_open {R : Type} (closed : R → bool) (idle idle' : list R) (r : R) :
  pools.Acquire closed None idle = (pools.Acquired r, idle') → closed r = false.
Proof.
  unfold pools.Acquire. destruct (pools.take_idle closed idle) as [[x|] l] eqn:Ht; [|done].
  intros [= <- _]. by eapply take_idle_open.
Qed.

Section AttemptFacts.
Context {I : Type}.
Variable Marshal : I → bytes * option error.
Variable Call : nat → nat → string → ServiceRPCIn → ServiceRPCOut * option error.
Variable connectionFactory : Service → nat → option (ServiceResource + error).

Lemma attemptSend_leased (ri : option skynet.RequestInfo) (fn : string) (inp : I)
    (c : ServiceClient) (sp : ptr) (idle : list ptr) (e : servicePool)
    (r : pools.acquired ServiceResource) (idle' : list ServiceResource) :
  pools.Acquire (ptr_IsClosed c) None (instancePool c) = (pools.Acquired sp, idle) →
  heap c !! sp = Some e →
  pools.Acquire (sr_IsClosed c) (connectionFactory (sp_service e) (dials c)) (sp_pool e)
  = (r, idle') →
  attemptSend Marshal Call connectionFactory ri fn inp c
  = let c := leased sp e idle idle' c in
    match r with
    | pools.AcquireBlocks => Parked [instancePool_Release sp] c
    | pools.AcquireError err =>
        Pushing {| result := []; err := Some err |}
          [pool_Release sp None; instancePool_Release sp]
          (set_Log (Log c ++ [LogError err]) c)
    | pools.Acquired sr =>
        let '(result, err, c) := sendToInstance Marshal Call sr ri fn inp c in
        Pushing {| result := result; err := err |}
          [pool_Release sp (Some sr); instancePool_Release sp] c
    end.
Proof.
  intros Hi He Hc. unfold attemptSend. rewrite Hi.
  unfold attemptSend_from. cbn [heap set_instancePool]. rewrite He.
  change (sr_IsClosed (set_instancePool idle c)) with (sr_IsClosed c).
  cbn [dials set_instancePool]. by rewrite Hc.
Qed.

(** [sendToInstance] once the input is marshalled: the request goes out
    with the given or the synthesized [RequestInfo]; a failed call closes
    the connection and is logged; an error in the reply replaces the error
    of the call. *)
Lemma sendToInstance_called (sr : ServiceResource) (ri : option skynet.RequestInfo)
    (fn : string) (inp : I) (c : ServiceClient) (b : bytes) (sout : ServiceRPCOut)
    (cerr : option error) :
  Marshal inp = (b, None) →
  let sin := {| RequestInfo := (orFresh ri c).1; Method := fn; In := b |} in
  let method := Name (sr_service sr) +:+ ".Forward" in
  Call (length (wire c)) (rpcClient sr) method sin = (sout, cerr) →
  sendToInstance Marshal Call sr ri fn inp c
  = let c := set_wire
               (wire c ++ [{| wc_client := rpcClient sr; wc_method := method;
                              wc_in := sin |}]) (orFresh ri c).2 in
    (Out sout,
     match Err sout with Some e => Some (serviceError e) | None => cerr end,
     match cerr with
     | Some e => set_Log (Log c ++ [LogError e]) (sr_Close sr c)
     | None => c
     end).
Proof.
  intros Hm sin method Hcall. unfold sendToInstance.
  subst sin method. destruct ri as [r|]; simpl in *; rewrite Hm, Hcall; done.
Qed.

(** A reply that carries an error reaches the loop of [send] as a
    [serviceError] next to the bytes of the reply, whatever the call itself
    returned. *)
Lemma sendToInstance_remote_error (sr : ServiceResource) (ri : option skynet.RequestInfo)
    (fn : string) (inp : I) (c : ServiceClient) (b : bytes) (sout : ServiceRPCOut)
    (cerr : option error) (e : error) :
  Marshal inp = (b, None) →
  Call (length (wire c)) (rpcClient sr) (Name (sr_service sr) +:+ ".Forward")
    {| RequestInfo := (orFresh ri c).1; Method := fn; In := b |} = (sout, cerr) →
  Err sout = Some e →
  (sendToInstance Marshal Call sr ri fn inp c).1 = (Out sout, Some (serviceError e))
  ∧ decoded {| result := Out sout; err := Some (serviceError e) |}.
Proof.
  intros Hm Hcall He. rewrite (sendToInstance_called sr ri fn inp c b sout cerr Hm Hcall).
  simpl. rewrite He. split; [done|]. right. by eexists.
Qed.

(** C10: when the call on the wire fails, the attempt closes the connection
    it leased and nothing else: no entry of the arena changes its closed
    flag, the entry the attempt holds is open, the instance map is what it
    was, the entry is back in the instance pool when the attempt exits, and
    the connection is not back in the pool of the entry. *)
Theorem transport_failure_closes_the_connection_only
    (ri : option skynet.RequestInfo) (fn : string) (inp : I) (c : ServiceClient)
    (sp : ptr) (idle : list ptr) (e : servicePool) (sr : ServiceResource)
    (idle' : list ServiceResource) (b : bytes) (sout : ServiceRPCOut) (terr : error) :
  pools.Acquire (ptr_IsClosed c) None (instancePool c) = (pools.Acquired sp, idle) →
  heap c !! sp = Some e →
  pools.Acquire (sr_IsClosed c) (connectionFactory (sp_service e) (dials c)) (sp_pool e)
  = (pools.Acquired sr, idle') →
  Marshal inp = (b, None) →
  Call (length (wire c)) (rpcClient sr) (Name (sr_service sr) +:+ ".Forward")
    {| RequestInfo := (orFresh ri c).1; Method := fn; In := b |} = (sout, Some terr) →
  ∃ a c',
    attempt_run Marshal Call connectionFactory ri fn inp c = Some (a, c')
    ∧ closedClients c' = {[rpcClient sr]} ∪ closedClients c
    ∧ (∀ p, sp_closed <$> heap c' !! p = sp_closed <$> heap c !! p)
    ∧ ptr_IsClosed c' sp = false
    ∧ instances c' = instances c
    ∧ instancePool c' = idle ++ [sp]
    ∧ sp_pool <$> heap c' !! sp = Some idle'.
Proof.
  intros Hi He Hc Hm Hcall.
  pose proof (Acquire_lazy_open _ _ _ _ Hi) as Hopen.
  unfold ptr_IsClosed in Hopen. rewrite He in Hopen. unfold IsClosed in Hopen.
  pose proof (lookup_lt_Some _ _ _ He) as Hlt.
  unfold attempt_run. rewrite (attemptSend_leased _ _ _ _ _ _ _ _ _ Hi He Hc).
  cbn zeta.
  rewrite (sendToInstance_called sr ri fn inp (leased sp e idle idle' c) b sout
             (Some terr) Hm).
  2: { destruct ri; exact Hcall. }
  cbn zeta. set (c3 := set_Log _ (sr_Close sr _)).
  (* the state at the push: the connection is closed, the entry is leased *)
  assert (closedClients c3 = {[rpcClient sr]} ∪ closedClients c) as Hcc
    by (by destruct ri).
  assert (heap c3 = <[sp := with_pool idle' e]> (heap c)) as Hh by (by destruct ri).
  assert (instancePool c3 = idle) as Hp by (by destruct ri).
  assert (instances c3 = instances c) as Hi3 by (by destruct ri).
  assert (sr_IsClosed c3 sr = true) as Hclosed.
  { unfold sr_IsClosed. rewrite Hcc. apply bool_decide_eq_true.
    apply elem_of_union. left. by apply elem_of_singleton. }
  clearbody c3.
  (* the two deferred releases *)
  eexists _, _. split; [reflexivity|].
  unfold attempt_exit. cbn [foldl run_deferred pools.Release]. rewrite Hclosed.
  assert (Hheap : ∀ p,
    alter (λ e0, with_pool (sp_pool e0) e0) sp (heap c3) !! p
    = if decide (sp = p) then Some (with_pool idle' e) else heap c !! p).
  { intros p. rewrite Hh. case_decide as Hsp.
    - subst p. by rewrite list_lookup_alter_eq, list_lookup_insert_eq.
    - by rewrite list_lookup_alter_ne, list_lookup_insert_ne. }
  assert (Hsp : ptr_IsClosed
            (set_heap (alter (λ e0, with_pool (sp_pool e0) e0) sp (heap c3)) c3) sp
          = false).
  { unfold ptr_IsClosed. simpl. by rewrite Hheap, decide_True. }
  rewrite Hsp. unfold ptr_IsClosed. simpl.
  rewrite Hcc, Hi3, Hp, !Hheap. rewrite decide_True by done. simpl.
  split; [done|]. split; [|done].
  intros p. rewrite Hheap. case_decide as Hsp'; [|done]. subst p. by rewrite He.
Qed.

End AttemptFacts.

Section DispatchFacts.
Context {I O : Type}.
Variable Marshal : I → bytes * option error.
Variable Unmarshal : bytes → O → O * option error.
Variable Call : nat → nat → string → ServiceRPCIn → ServiceRPCOut * option error.
Variable connectionFactory : Service → nat → option (ServiceResource + error).

(** C7, amended: when the pool of the instance an attempt holds has no
    connection to give and reports an error, the attempt pushes that error,
    without bytes, on the attempts channel; the loop of [send] takes it, an
    error that is not a [serviceError], as a failure of the transport: it
    returns it when [giveup] is 0 and records it otherwise. *)
Theorem connection_failure_is_pushed (ri : option skynet.RequestInfo) (fn : string)
    (inp : I) (c : ServiceClient) (sp : ptr) (idle : list ptr) (e : servicePool)
    (idle' : list ServiceResource) (cerr : error)
    (retry giveup : Z) (g : goroutine I) (st : send_state I O) :
  pools.Acquire (ptr_IsClosed c) None (instancePool c) = (pools.Acquired sp, idle) →
  heap c !! sp = Some e →
  pools.Acquire (sr_IsClosed c) (connectionFactory (sp_service e) (dials c)) (sp_pool e)
  = (pools.AcquireError cerr, idle') →
  is_serviceError cerr = false →
  let a := {| result := []; err := Some cerr |} in
  let st' := {| s_err := Some cerr; s_out := s_out st; s_spawned := s_spawned st |} in
  (∃ c', attempt_run Marshal Call connectionFactory ri fn inp c = Some (a, c'))
  ∧ send_select Unmarshal retry giveup g st (attempts a)
    = if (giveup =? 0)%Z then Returned st' else Selecting st'.
Proof.
  intros Hi He Hc Hplain a st'. split.
  - unfold attempt_run. rewrite (attemptSend_leased Marshal Call connectionFactory ri fn inp c sp idle e _ idle' Hi He Hc).
    simpl. eauto.
  - simpl. by rewrite Hplain.
Qed.

Lemma send_loop_spawned (retry giveup : Z) (g : goroutine I) (st : send_state I O)
    (evs : list send_event) (P : goroutine I → Prop) :
  P g → Forall P (s_spawned st) →
  Forall P (spawned_of (send_loop Unmarshal retry giveup g st evs)).
Proof.
  intros Hg. revert st. induction evs as [|ev evs IH]; intros st Hst; simpl; [done|].
  destruct ev as [| |a]; simpl.
  - destruct (0 <? retry)%Z; [|constructor]. apply IH. simpl.
    apply Forall_app. split; [done|]. by constructor.
  - destruct (0 <? giveup)%Z; [done|constructor].
  - destruct (err a) as [e|]; simpl.
    + destruct (is_serviceError e).
      * unfold decode. simpl. by destruct (Unmarshal (result a) (s_out st)).
      * destruct (giveup =? 0)%Z; [done|]. by apply IH.
    + unfold decode. simpl. by destruct (Unmarshal (result a) (s_out st)).
Qed.

End DispatchFacts.

(** ** Examples *)

(** A connection reset as the first attempt result: with no deadline the call
    returns it, with a deadline of 30 the loop goes on to the deadline. *)
Lemma send_transport_failure_witness :
  send_loop copyUnmarshal 0 0 testGoroutine testState ([] ++ attempts resetError :: [timeout])
  = Returned {| s_err := Some (errorString "connection reset"); s_out := [];
                s_spawned := [testGoroutine] |}
  ∧ send_loop copyUnmarshal 0 30 testGoroutine testState ([] ++ attempts resetError :: [timeout])
    = send_loop copyUnmarshal 0 30 testGoroutine
        {| s_err := Some (errorString "connection reset"); s_out := [];
           s_spawned := [testGoroutine] |} [timeout].
Proof.
  split.
  - refine (proj1 (send_transport_failure copyUnmarshal 0 0 testGoroutine testState
                     testState [] [timeout] resetError (errorString "connection reset")
                     _ _ _) _); reflexivity.
  - refine (proj2 (proj2 (send_transport_failure copyUnmarshal 0 30 testGoroutine testState
                     testState [] [timeout] resetError (errorString "connection reset")
                     _ _ _) _)); reflexivity.
Defined.

(** An error of the remote method next to one byte: the call returns nil
    and the byte is in [out]. *)
Lemma Send_returns_the_decoder_outcome_witness :
  Send copyUnmarshal (newServiceClient []) None "Echo" [] [] ([] ++ attempts remoteError :: [])
  = Returned {| s_err := None; s_out := [Byte.x78]; s_spawned := [testGoroutine] |}
  ∧ SendOnce copyUnmarshal (newServiceClient []) None "Echo" [] []
      ([] ++ attempts remoteError :: [])
    = Returned {| s_err := None; s_out := [Byte.x78]; s_spawned := [testGoroutine] |}.
Proof.
  assert (decoded remoteError) as Hd by (right; eexists; reflexivity).
  split.
  - refine (proj1 (Send_returns_the_decoder_outcome copyUnmarshal (newServiceClient [])
                     None "Echo" [] [] testState [] [] remoteError Hd) _); reflexivity.
  - refine (proj2 (Send_returns_the_decoder_outcome copyUnmarshal (newServiceClient [])
                     None "Echo" [] [] testState [] [] remoteError Hd) _); reflexivity.
Defined.

(** The deadline after one connection reset, and the deadline before any
    attempt result. *)
Lemma send_deadline_witness :
  send copyUnmarshal 0 30 None "Echo" [] [] ([attempts resetError] ++ timeout :: [])
  = Returned {| s_err := Some (errorString "connection reset"); s_out := [];
                s_spawned := [testGoroutine] |}
  ∧ send copyUnmarshal 0 30 None "Echo" [] [] ([] ++ timeout :: [])
    = Returned {| s_err := Some ErrRequestTimeout; s_out := [];
                  s_spawned := [testGoroutine] |}.
Proof.
  split.
  - refine (send_deadline copyUnmarshal 0 30 None "Echo" [] []
              {| s_err := Some (errorString "connection reset"); s_out := [];
                 s_spawned := [testGoroutine] |} [attempts resetError] [] _ _);
      reflexivity.
  - refine (send_deadline copyUnmarshal 0 30 None "Echo" [] [] testState [] [] _ _);
      reflexivity.
Defined.

(** The first Add of a registered instance, and the same Add again. *)
Lemma notify_registered_witness :
  instancePool (notify (newServiceClient []) (added (svcA true))) = [] ++ [0]
  ∧ notify oneInstance (added (svcA true)) = oneInstance.
Proof.
  split.
  - refine (proj1 (proj2 (proj2 (proj1 (notify_registered (newServiceClient [])
                     (added (svcA true)) _ _) _)))).
    + left; reflexivity.
    + reflexivity.
    + vm_compute; reflexivity.
  - refine (proj2 (notify_registered oneInstance (added (svcA true)) _ _) _).
    + left; reflexivity.
    + reflexivity.
    + exists 0. vm_compute; reflexivity.
Defined.

(** The Remove of the one instance the client has, and a Remove on a new
    client. *)
Lemma notify_unregistered_witness :
  instances (notify oneInstance (removed (svcA true))) !! "10.0.0.1:9000" = None
  ∧ ptr_IsClosed (notify oneInstance (removed (svcA true))) 0 = true
  ∧ notify (newServiceClient []) (removed (svcA true)) = newServiceClient [].
Proof.
  split; [|split].
  - refine (proj1 (proj2 (proj2 (proj1 (notify_unregistered oneInstance
                     (removed (svcA true)) _) 0 _)))).
    + left; reflexivity.
    + vm_compute; reflexivity.
  - refine (proj1 (proj2 (proj2 (proj2 (proj1 (notify_unregistered oneInstance
                     (removed (svcA true)) _) 0 _))) _)).
    + left; reflexivity.
    + vm_compute; reflexivity.
    + eexists; reflexivity.
  - refine (proj2 (notify_unregistered (newServiceClient []) (removed (svcA true)) _) _).
    + left; reflexivity.
    + vm_compute; reflexivity.
Defined.

(** The one instance refuses connections. *)
Lemma connection_failure_is_pushed_witness :
  (∃ c', attempt_run copyMarshal echoCall dialRefused None "Echo" [] oneInstance
         = Some ({| result := []; err := Some (errorString "connection refused") |}, c'))
  ∧ send_select copyUnmarshal 0 0 testGoroutine testState
      (attempts {| result := []; err := Some (errorString "connection refused") |})
    = Returned {| s_err := Some (errorString "connection refused"); s_out := [];
                  s_spawned := [testGoroutine] |}.
Proof.
  refine (connection_failure_is_pushed copyMarshal copyUnmarshal echoCall dialRefused
            None "Echo" [] oneInstance 0 []
            {| sp_service := svcA true; sp_pool := []; sp_closed := false |} []
            (errorString "connection refused") 0 0 testGoroutine testState _ _ _ _);
    vm_compute; reflexivity.
Defined.

(** The one instance resets the connection during the call. *)
Lemma transport_failure_closes_the_connection_only_witness :
  ∃ a c',
    attempt_run copyMarshal resetCall dialOK None "Echo" [] oneInstance = Some (a, c')
    ∧ closedClients c' = {[0]} ∪ closedClients oneInstance
    ∧ (∀ p, sp_closed <$> heap c' !! p = sp_closed <$> heap oneInstance !! p)
    ∧ ptr_IsClosed c' 0 = false
    ∧ instances c' = instances oneInstance
    ∧ instancePool c' = [] ++ [0]
    ∧ sp_pool <$> heap c' !! 0 = Some [].
Proof.
  refine (transport_failure_closes_the_connection_only copyMarshal resetCall dialOK
            None "Echo" [] oneInstance 0 []
            {| sp_service := svcA true; sp_pool := []; sp_closed := false |}
            (connA 0) [] [] {| Out := []; Err := None |}
            (errorString "connection reset") _ _ _ _ _);
    vm_compute; reflexivity.
Defined.

(** C4 as it is stated does not hold: an Add notification whose service is
    not registered goes to [removeInstanceMux]; for an address the map does
    not have it creates nothing, and for one the map has it deletes the
    entry. *)
Lemma add_unregistered_creates_no_entry :
  Type_ (added (svcA false)) = InstanceAddNotification
  ∧ instances (newServiceClient []) !! "10.0.0.1:9000" = None
  ∧ instances (notify (newServiceClient []) (added (svcA false))) !! "10.0.0.1:9000" = None
  ∧ instancePool (notify (newServiceClient []) (added (svcA false))) = []
  ∧ instances oneInstance !! "10.0.0.1:9000" = Some 0
  ∧ instances (notify oneInstance (added (svcA false))) !! "10.0.0.1:9000" = None.
Proof. vm_compute. done. Qed.

(** C7 as it is stated does not hold: with no instance in the instance pool
    the attempt is parked in [Acquire] and pushes nothing; and an error
    returned by that [Acquire] is dropped, the attempt stops in a panic
    before it pushes anything. *)
Lemma no_instance_is_not_pushed :
  attempt_run copyMarshal echoCall dialOK None "Echo" [] (newServiceClient []) = None
  ∧ attemptSend copyMarshal echoCall dialOK None "Echo" [] (newServiceClient [])
    = Parked [] (newServiceClient [])
  ∧ attemptSend_from copyMarshal echoCall dialOK
      (pools.AcquireError (errorString "pool closed")) None "Echo" [] (newServiceClient [])
    = Panicked (newServiceClient []).
Proof. by vm_compute. Qed.

(** ** Further properties of the registry actor *)

Lemma mux_foldl_notify (evs : list mux_event) (c : ServiceClient) :
  mux evs c = foldl notify c (notifications evs).
Proof.
  unfold mux. revert c. induction evs as [|[ns|] evs IH]; intros c; simpl; [done| |done].
  by rewrite foldl_app, IH.
Qed.

(** X1: the actor's state depends on the notifications and their order only: any
    grouping into batches, with any reads of the timeouts in between, leaves
    the state that the one batch of all notifications leaves. *)
Theorem mux_one_batch (evs : list mux_event) (c : ServiceClient) :
  mux evs c = mux [NotificationChan (notifications evs)] c.
Proof. rewrite !mux_foldl_notify. simpl. by rewrite app_nil_r. Qed.

Lemma dom_notify (c : ServiceClient) (n : InstanceNotification) :
  dom (instances (notify c n))
  = if registers n
    then {[ServiceAddr (Service_ n)]} ∪ dom (instances c)
    else dom (instances c) ∖ {[ServiceAddr (Service_ n)]}.
Proof.
  assert (Hadd : dom (instances (addInstanceMux (Service_ n) c))
                 = {[ServiceAddr (Service_ n)]} ∪ dom (instances c)).
  { destruct (instances c !! ServiceAddr (Service_ n)) as [p|] eqn:Hk.
    - rewrite addInstanceMux_known by eauto.
      apply elem_of_dom_2 in Hk. apply set_eq. intros x.
      rewrite elem_of_union, elem_of_singleton. intuition congruence.
    - rewrite (addInstanceMux_new _ _ Hk). simpl. apply dom_insert_L. }
  assert (Hrem : dom (instances (removeInstanceMux (Service_ n) c))
                 = dom (instances c) ∖ {[ServiceAddr (Service_ n)]}).
  { destruct (instances c !! ServiceAddr (Service_ n)) as [p|] eqn:Hk.
    - rewrite (removeInstanceMux_known _ _ _ Hk). simpl. apply dom_delete_L.
    - rewrite (removeInstanceMux_unknown _ _ Hk).
      apply not_elem_of_dom in Hk. apply set_eq. intros x.
      rewrite elem_of_difference, elem_of_singleton. intuition congruence. }
  unfold notify, registers. by destruct (Type_ n), (Registered (Service_ n)).
Qed.

(** X2: an address is a key of the instance map exactly when the last
    notification that named it was an Add or an Update of a registered
    service; an address no notification named is a key when it was one
    before. *)
Theorem known_by_last_notification (evs : list mux_event) (c : ServiceClient) (k : string) :
  k ∈ dom (instances (mux evs c))
  ↔ match last (about k (notifications evs)) with
    | Some n => registers n = true
    | None => k ∈ dom (instances c)
    end.
Proof.
  rewrite mux_foldl_notify. unfold about.
  induction (notifications evs) as [|n ns IH] using rev_ind; [done|].
  rewrite foldl_snoc, dom_notify, filter_app.
  destruct (decide (ServiceAddr (Service_ n) = k)) as [Hk|Hk].
  - rewrite filter_cons_True by done. rewrite filter_nil, last_snoc. subst k.
    destruct (registers n).
    + rewrite elem_of_union, elem_of_singleton. intuition congruence.
    + rewrite elem_of_difference, elem_of_singleton. intuition congruence.
  - rewrite filter_cons_False by done. rewrite filter_nil, app_nil_r, <- IH.
    destruct (registers n).
    + rewrite elem_of_union, elem_of_singleton. intuition congruence.
    + rewrite elem_of_difference, elem_of_singleton. intuition congruence.
Qed.

(** X3: a notification repeated at once changes nothing the second time. *)
Theorem notify_idempotent (c : ServiceClient) (n : InstanceNotification) :
  notify (notify c n) n = notify c n.
Proof.
  assert (Hadd : ∀ s, addInstanceMux s (addInstanceMux s c) = addInstanceMux s c).
  { intros s. destruct (instances c !! ServiceAddr s) as [p|] eqn:Hk.
    - assert (addInstanceMux s c = c) as Hc by (apply addInstanceMux_known; eauto).
      by rewrite !Hc.
    - rewrite (addInstanceMux_new _ _ Hk). apply addInstanceMux_known. simpl.
      rewrite lookup_insert_eq. eauto. }
  assert (Hrem : ∀ s, removeInstanceMux s (removeInstanceMux s c) = removeInstanceMux s c).
  { intros s. destruct (instances c !! ServiceAddr s) as [p|] eqn:Hk.
    - rewrite (removeInstanceMux_known _ _ _ Hk). apply removeInstanceMux_unknown.
      simpl. apply lookup_delete_eq.
    - by rewrite !(removeInstanceMux_unknown _ _ Hk). }
  unfold notify. destruct (Type_ n), (Registered (Service_ n)); auto.
Qed.

(** X4: an Add followed by a Remove of the same address leaves the map without
    that address and otherwise as it was; the entry a new address got from
    the Add is closed. *)
Theorem remove_after_add (s : Service) (c : ServiceClient) :
  instances (removeInstanceMux s (addInstanceMux s c))
  = delete (ServiceAddr s) (instances c)
  ∧ (instances c !! ServiceAddr s = None →
     instances (removeInstanceMux s (addInstanceMux s c)) = instances c
     ∧ ptr_IsClosed (removeInstanceMux s (addInstanceMux s c)) (length (heap c)) = true).
Proof.
  destruct (instances c !! ServiceAddr s) as [p|] eqn:Hk.
  - rewrite addInstanceMux_known by eauto.
    rewrite (removeInstanceMux_known _ _ _ Hk). done.
  - rewrite (addInstanceMux_new _ _ Hk).
    erewrite removeInstanceMux_known by (simpl; apply lookup_insert_eq).
    simpl. rewrite delete_insert_eq. split; [done|]. intros _.
    split; [by apply delete_id|].
    unfold ptr_IsClosed. simpl.
    by rewrite list_lookup_alter_eq, list_lookup_middle.
Qed.

Lemma count_log_snoc (p : LogItem → bool) (l : list LogItem) (i : LogItem) :
  count_log p (l ++ [i]) = count_log p l + (if p i then 1 else 0).
Proof. induction l as [|j l IH]; simpl; [lia|]. rewrite IH. lia. Qed.

Lemma size_delete_known {A : Type} (m : gmap string A) (k : string) (x : A) :
  m !! k = Some x → S (size (delete k m)) = size m.
Proof.
  intros Hk. rewrite <- (insert_delete_id m k x Hk) at 2.
  rewrite map_size_insert_None; [done|]. apply lookup_delete_eq.
Qed.

(** The records of a notification: the map and the two counts move
    together, and nothing is taken from the log. *)
Lemma notify_log (c : ServiceClient) (n : InstanceNotification) :
  size (instances (notify c n)) + count_log is_removed (Log (notify c n))
    + count_log is_discovered (Log c)
  = size (instances c) + count_log is_removed (Log c)
    + count_log is_discovered (Log (notify c n))
  ∧ Log c `prefix_of` Log (notify c n).
Proof.
  assert (Hadd : ∀ s,
    size (instances (addInstanceMux s c)) + count_log is_removed (Log (addInstanceMux s c))
      + count_log is_discovered (Log c)
    = size (instances c) + count_log is_removed (Log c)
      + count_log is_discovered (Log (addInstanceMux s c))
    ∧ Log c `prefix_of` Log (addInstanceMux s c)).
  { intros s. destruct (instances c !! ServiceAddr s) as [p|] eqn:Hk.
    - rewrite addInstanceMux_known by eauto. done.
    - rewrite (addInstanceMux_new _ _ Hk). simpl.
      rewrite !count_log_snoc, map_size_insert_None by done. simpl.
      split; [lia|]. by apply prefix_app_r. }
  assert (Hrem : ∀ s,
    size (instances (removeInstanceMux s c))
      + count_log is_removed (Log (removeInstanceMux s c))
      + count_log is_discovered (Log c)
    = size (instances c) + count_log is_removed (Log c)
      + count_log is_discovered (Log (removeInstanceMux s c))
    ∧ Log c `prefix_of` Log (removeInstanceMux s c)).
  { intros s. destruct (instances c !! ServiceAddr s) as [p|] eqn:Hk.
    - rewrite (removeInstanceMux_known _ _ _ Hk). simpl.
      rewrite !count_log_snoc. simpl.
      pose proof (size_delete_known _ _ _ Hk). split; [lia|]. by apply prefix_app_r.
    - by rewrite (removeInstanceMux_unknown _ _ Hk). }
  unfold notify. destruct (Type_ n), (Registered (Service_ n)); auto.
Qed.

Lemma mux_log (evs : list mux_event) (c : ServiceClient) :
  size (instances (mux evs c)) + count_log is_removed (Log (mux evs c))
    + count_log is_discovered (Log c)
  = size (instances c) + count_log is_removed (Log c)
    + count_log is_discovered (Log (mux evs c))
  ∧ Log c `prefix_of` Log (mux evs c).
Proof.
  rewrite mux_foldl_notify.
  induction (notifications evs) as [|n ns [IH1 IH2]] using rev_ind; [done|].
  rewrite foldl_snoc. destruct (notify_log (foldl notify c ns) n) as [H1 H2].
  split; [lia|]. by etrans.
Qed.

(** X5: the log of a client that started empty accounts for its map: the number
    of keys is the number of discovery records less the number of removal
    records; and the actor only ever appends to a log. *)
Theorem log_accounts_for_the_map (h : list servicePool) (evs : list mux_event)
    (c : ServiceClient) :
  size (instances (mux evs (newServiceClient h)))
    + count_log is_removed (Log (mux evs (newServiceClient h)))
  = count_log is_discovered (Log (mux evs (newServiceClient h)))
  ∧ Log c `prefix_of` Log (mux evs c).
Proof.
  destruct (mux_log evs (newServiceClient h)) as [H _]. simpl in H.
  rewrite map_size_empty in H. split; [lia|]. apply mux_log.
Qed.

(** *** The arena and the transport under the actor *)

Lemma entry_kept_refl (e : servicePool) : entry_kept e e.
Proof. by split. Qed.

Lemma notify_arena (c : ServiceClient) (n : InstanceNotification) (p : ptr)
    (e : servicePool) :
  heap c !! p = Some e →
  ∃ e', heap (notify c n) !! p = Some e' ∧ entry_kept e e' ∧ sp_pool e' = sp_pool e.
Proof.
  intros He.
  assert (Hadd : ∀ s, ∃ e', heap (addInstanceMux s c) !! p = Some e'
                            ∧ entry_kept e e' ∧ sp_pool e' = sp_pool e).
  { intros s. exists e. split; [|by split; [apply entry_kept_refl|]].
    destruct (instances c !! ServiceAddr s) as [q|] eqn:Hk.
    - by rewrite addInstanceMux_known by eauto.
    - rewrite (addInstanceMux_new _ _ Hk). simpl. by apply lookup_app_l_Some. }
  assert (Hrem : ∀ s, ∃ e', heap (removeInstanceMux s c) !! p = Some e'
                            ∧ entry_kept e e' ∧ sp_pool e' = sp_pool e).
  { intros s. destruct (instances c !! ServiceAddr s) as [q|] eqn:Hk.
    - rewrite (removeInstanceMux_known _ _ _ Hk). simpl.
      destruct (decide (q = p)) as [->|Hne].
      + exists (Close e). rewrite list_lookup_alter_eq, He. by repeat split.
      + exists e. rewrite list_lookup_alter_ne by done.
        by split; [|split; [apply entry_kept_refl|]].
    - rewrite (removeInstanceMux_unknown _ _ Hk). exists e.
      by split; [|split; [apply entry_kept_refl|]]. }
  unfold notify. destruct (Type_ n), (Registered (Service_ n)); auto.
Qed.

Lemma mux_arena (evs : list mux_event) (c : ServiceClient) (p : ptr) (e : servicePool) :
  heap c !! p = Some e →
  ∃ e', heap (mux evs c) !! p = Some e' ∧ entry_kept e e' ∧ sp_pool e' = sp_pool e.
Proof.
  intros He. rewrite mux_foldl_notify.
  induction (notifications evs) as [|n ns IH] using rev_ind.
  - exists e. by split; [|split; [apply entry_kept_refl|]].
  - destruct IH as (e1 & H1 & [Hs1 Hc1] & Hp1). rewrite foldl_snoc.
    destruct (notify_arena _ n _ _ H1) as (e2 & H2 & [Hs2 Hc2] & Hp2).
    exists e2. split; [done|]. split; [split|]; [congruence|auto|congruence].
Qed.

Lemma notify_transport (c : ServiceClient) (n : InstanceNotification) :
  closedClients (notify c n) = closedClients c ∧ uuids (notify c n) = uuids c
  ∧ dials (notify c n) = dials c ∧ wire (notify c n) = wire c.
Proof.
  unfold notify, addInstanceMux, removeInstanceMux.
  destruct (Type_ n), (Registered (Service_ n)),
    (instances c !! ServiceAddr (Service_ n)); done.
Qed.

(** X6: the actor stays away from the transport and keeps what the arena holds:
    no connection is closed, no call is made, no identifier is drawn; an
    entry of the arena stays where it is with its service and its idle
    connections, and once closed it stays closed. *)
Theorem mux_keeps_arena_and_transport (evs : list mux_event) (c : ServiceClient) :
  closedClients (mux evs c) = closedClients c
  ∧ uuids (mux evs c) = uuids c
  ∧ dials (mux evs c) = dials c
  ∧ wire (mux evs c) = wire c
  ∧ ∀ p e, heap c !! p = Some e →
      ∃ e', heap (mux evs c) !! p = Some e' ∧ entry_kept e e' ∧ sp_pool e' = sp_pool e.
Proof.
  split; [|split; [|split; [|split]]]; [| | | |intros p e; apply mux_arena];
    rewrite mux_foldl_notify;
    induction (notifications evs) as [|n ns IH] using rev_ind; try done;
    rewrite foldl_snoc, <- IH; apply notify_transport.
Qed.

(** X7: an entry that a Remove took out of the map is never leased again: after
    any further turns of the actor it is closed, and [Acquire] on the
    instance pool does not return it. *)
Theorem removed_entry_is_never_leased (s : Service) (c : ServiceClient) (sp : ptr)
    (evs : list mux_event) (idle : list ptr) :
  instances c !! ServiceAddr s = Some sp →
  is_Some (heap c !! sp) →
  ptr_IsClosed (mux evs (removeInstanceMux s c)) sp = true
  ∧ pools.Acquire (ptr_IsClosed (mux evs (removeInstanceMux s c))) None
      (instancePool (mux evs (removeInstanceMux s c)))
    ≠ (pools.Acquired sp, idle).
Proof.
  intros Hk [e He].
  assert (Hclosed : ptr_IsClosed (mux evs (removeInstanceMux s c)) sp = true).
  { assert (heap (removeInstanceMux s c) !! sp = Some (Close e)) as H0.
    { rewrite (removeInstanceMux_known _ _ _ Hk). simpl.
      by rewrite list_lookup_alter_eq, He. }
    destruct (mux_arena evs _ _ _ H0) as (e' & He' & [_ Hc] & _).
    unfold ptr_IsClosed. rewrite He'. by apply Hc. }
  split; [done|]. intros Hacq. apply Acquire_lazy_open in Hacq. congruence.
Qed.

(** ** Further properties of the loop of send *)

Section LoopFacts.
Context {I O : Type}.
Variable Unmarshal : bytes → O → O * option error.

(** The three ways out of the [select]. *)
Lemma send_select_Returned (retry giveup : Z) (g : goroutine I) (st1 st : send_state I O)
    (ev : send_event) :
  send_select Unmarshal retry giveup g st1 ev = Returned st →
  (ev = timeout ∧ (0 < giveup)%Z
   ∧ s_err st = Some (default ErrRequestTimeout (s_err st1)) ∧ s_out st = s_out st1)
  ∨ (∃ a, ev = attempts a ∧ failed a ∧ giveup = 0%Z
          ∧ s_err st = err a ∧ s_out st = s_out st1)
  ∨ (∃ a, ev = attempts a ∧ decoded a
          ∧ (s_out st, s_err st) = Unmarshal (result a) (s_out st1)).
Proof.
  destruct ev as [| |a]; simpl.
  - by destruct (0 <? retry)%Z.
  - destruct (0 <? giveup)%Z eqn:Hg; [|done]. intros [= <-]. left. simpl.
    split; [done|]. split; [lia|]. by destruct (s_err st1).
  - destruct (err a) as [e|] eqn:He; simpl.
    + destruct (is_serviceError e) eqn:Hs.
      * rewrite decode_Returned. intros [= <-]. right. right. exists a. simpl.
        split; [done|]. split; [right; destruct e; [done|by eexists]|].
        by destruct (Unmarshal (result a) (s_out st1)).
      * destruct (giveup =? 0)%Z eqn:Hg; [|done]. intros [= <-]. right. left.
        exists a. simpl. split; [done|]. split; [by exists e|]. split; [lia|done].
    + rewrite decode_Returned. intros [= <-]. right. right. exists a. simpl.
      split; [done|]. split; [by left|].
      by destruct (Unmarshal (result a) (s_out st1)).
Qed.

Lemma send_loop_Returned (retry giveup : Z) (g : goroutine I) (st0 st : send_state I O)
    (evs : list send_event) :
  send_loop Unmarshal retry giveup g st0 evs = Returned st →
  ∃ pre ev post st1,
    evs = pre ++ ev :: post
    ∧ send_loop Unmarshal retry giveup g st0 pre = Selecting st1
    ∧ send_select Unmarshal retry giveup g st1 ev = Returned st.
Proof.
  revert st0. induction evs as [|ev evs IH]; intros st0; simpl; [done|].
  destruct (send_select Unmarshal retry giveup g st0 ev) as [st1| |] eqn:Hstep; [| |done].
  - intros (pre & ev' & post & st2 & -> & Hpre & Hret)%IH.
    exists (ev :: pre), ev', post, st2. simpl. by rewrite Hstep.
  - intros [= <-]. by exists [], ev, evs, st0.
Qed.

(** X8: [send] returns in one of three ways and in no other: on the deadline,
    with the last error recorded or [ErrRequestTimeout]; on a failed attempt
    when there is no deadline, with that error; on an attempt it decodes,
    with the outcome of the decoder.  In the first two [out] is untouched. *)
Theorem send_returns_in_three_ways (retry giveup : Z) (ri : option skynet.RequestInfo)
    (fn : string) (inp : I) (out : O) (evs : list send_event) (st : send_state I O) :
  send Unmarshal retry giveup ri fn inp out evs = Returned st →
  ∃ pre ev post st1,
    evs = pre ++ ev :: post
    ∧ send Unmarshal retry giveup ri fn inp out pre = Selecting st1
    ∧ ((ev = timeout ∧ (0 < giveup)%Z
        ∧ s_err st = Some (default ErrRequestTimeout (last_recorded None pre))
        ∧ s_out st = out)
       ∨ (∃ a, ev = attempts a ∧ failed a ∧ giveup = 0%Z
               ∧ s_err st = err a ∧ s_out st = out)
       ∨ (∃ a, ev = attempts a ∧ decoded a
               ∧ (s_out st, s_err st) = Unmarshal (result a) out)).
Proof.
  unfold send. intros (pre & ev & post & st1 & -> & Hpre & Hret)%send_loop_Returned.
  exists pre, ev, post, st1. split; [done|]. split; [done|].
  apply send_loop_Selecting in Hpre as [Herr Hout]. simpl in Herr, Hout.
  apply send_select_Returned in Hret. rewrite Herr, Hout in Hret. done.
Qed.

(** X9: a nil error of [send] is the nil of the decoder: some attempt result of
    the trace was decoded into [out] without error. *)
Theorem send_nil_means_decoded (retry giveup : Z) (ri : option skynet.RequestInfo)
    (fn : string) (inp : I) (out : O) (evs : list send_event) (st : send_state I O) :
  send Unmarshal retry giveup ri fn inp out evs = Returned st →
  s_err st = None →
  ∃ a, attempts a ∈ evs ∧ decoded a ∧ Unmarshal (result a) out = (s_out st, None).
Proof.
  unfold send. intros (pre & ev & post & st1 & -> & Hpre & Hret)%send_loop_Returned Hnil.
  apply send_loop_Selecting in Hpre as [_ Hout]. simpl in Hout.
  apply send_select_Returned in Hret. rewrite Hout in Hret.
  destruct Hret as [(_ & _ & Herr & _)|[(a & _ & (e & He & _) & _ & Herr & _)
                   |(a & -> & Hdec & Hun)]]; [congruence..|].
  exists a. split; [|split; [done|]].
  - apply elem_of_app. right. by left.
  - rewrite <- Hun. by rewrite Hnil.
Qed.

(** X10: without a deadline [send] cannot return before an attempt result
    arrives: ticks alone never end the call. *)
Theorem send_waits_without_deadline (retry giveup : Z) (ri : option skynet.RequestInfo)
    (fn : string) (inp : I) (out : O) (evs : list send_event) (st : send_state I O) :
  (giveup ≤ 0)%Z →
  Forall (λ ev, is_attempt ev = false) evs →
  send Unmarshal retry giveup ri fn inp out evs ≠ Returned st.
Proof.
  unfold send. intros Hg Hevs (pre & ev & post & st1 & -> & _ & Hret)%send_loop_Returned.
  apply Forall_app in Hevs as [_ Hev]. apply Forall_cons in Hev as [Hev _].
  apply send_select_Returned in Hret.
  destruct Hret as [(_ & Hpos & _)|[(a & -> & _)|(a & -> & _)]]; [lia|done..].
Qed.

Lemma send_loop_final (retry giveup : Z) (g : goroutine I) (st0 st : send_state I O)
    (evs rest : list send_event) :
  send_loop Unmarshal retry giveup g st0 evs = Returned st →
  send_loop Unmarshal retry giveup g st0 (evs ++ rest) = Returned st.
Proof.
  revert st0. induction evs as [|ev evs IH]; intros st0; simpl; [done|].
  destruct (send_select Unmarshal retry giveup g st0 ev); [apply IH|done..].
Qed.

Lemma send_loop_ready (retry giveup : Z) (g : goroutine I) (st0 : send_state I O)
    (evs : list send_event) :
  (0 < giveup)%Z → (0 < retry)%Z ∨ ticks evs = 0 →
  send_loop Unmarshal retry giveup g st0 evs ≠ NotReady.
Proof.
  intros Hg. revert st0. induction evs as [|ev evs IH]; intros st0 Hr; simpl; [done|].
  destruct ev as [| |a]; simpl.
  - destruct Hr as [Hr|Hr]; [|done].
    assert ((0 <? retry)%Z = true) as -> by lia. apply IH. by left.
  - by assert ((0 <? giveup)%Z = true) as -> by lia.
  - destruct (err a) as [e|]; simpl.
    + destruct (is_serviceError e); [by rewrite decode_Returned|].
      destruct (giveup =? 0)%Z; [done|]. by apply IH.
    + by rewrite decode_Returned.
Qed.

(** X12: with a deadline, [send] has returned at the latest when the deadline is
    delivered, whatever attempt results came before it, and whatever ticks
    when there is a ticker. *)
Theorem send_returns_by_the_deadline (retry giveup : Z) (ri : option skynet.RequestInfo)
    (fn : string) (inp : I) (out : O) (evs rest : list send_event) :
  (0 < giveup)%Z → (0 < retry)%Z ∨ ticks evs = 0 →
  ∃ st, send Unmarshal retry giveup ri fn inp out (evs ++ timeout :: rest) = Returned st.
Proof.
  unfold send. intros Hg Hr.
  set (g := {| g_ri := ri; g_fn := fn; g_in := inp |}).
  set (st0 := {| s_err := None; s_out := out; s_spawned := [g] |}).
  pose proof (send_loop_ready retry giveup g st0 evs Hg Hr) as Hready.
  destruct (send_loop Unmarshal retry giveup g st0 evs) as [st1|st1|] eqn:Hloop; [| |done].
  - rewrite (send_loop_app _ _ _ _ _ _ _ _ Hloop). simpl.
    assert ((0 <? giveup)%Z = true) as -> by lia. eauto.
  - exists st1. by apply send_loop_final.
Qed.

Lemma send_loop_attempts (retry giveup : Z) (g : goroutine I) (st0 : send_state I O)
    (evs : list send_event) :
  match send_loop Unmarshal retry giveup g st0 evs with
  | Selecting st => s_spawned st = s_spawned st0 ++ replicate (ticks evs) g
  | Returned st => ∃ k, k ≤ ticks evs ∧ s_spawned st = s_spawned st0 ++ replicate k g
  | NotReady => True
  end.
Proof.
  revert st0. induction evs as [|ev evs IH]; intros st0; simpl.
  { by rewrite app_nil_r. }
  destruct ev as [| |a]; simpl.
  - destruct (0 <? retry)%Z; [|done]. specialize (IH (spawn g st0)). simpl in IH.
    destruct (send_loop Unmarshal retry giveup g (spawn g st0) evs) as [st|st|]; [| |done].
    + by rewrite IH, <- (assoc_L (++)).
    + destruct IH as (k & Hk & ->). exists (S k). split; [lia|].
      by rewrite <- (assoc_L (++)).
  - destruct (0 <? giveup)%Z; [|done]. exists 0. split; [lia|]. simpl.
    by rewrite app_nil_r.
  - assert (Hdec : ∀ st1 : send_state I O, s_spawned st1 = s_spawned st0 →
      match decode Unmarshal a st1 with
      | Selecting _ => False
      | Returned st => ∃ k, k ≤ ticks evs ∧ s_spawned st = s_spawned st0 ++ replicate k g
      | NotReady => True
      end).
    { intros st1 H1. rewrite decode_Returned. exists 0. split; [lia|]. simpl.
      by rewrite app_nil_r. }
    destruct (err a) as [e|]; simpl.
    + destruct (is_serviceError e).
      * specialize (Hdec {| s_err := Some e; s_out := s_out st0;
                            s_spawned := s_spawned st0 |} eq_refl).
        by destruct (decode Unmarshal a _).
      * destruct (giveup =? 0)%Z.
        -- exists 0. split; [lia|]. simpl. by rewrite app_nil_r.
        -- apply (IH {| s_err := Some e; s_out := s_out st0;
                        s_spawned := s_spawned st0 |}).
    + specialize (Hdec {| s_err := None; s_out := s_out st0;
                          s_spawned := s_spawned st0 |} eq_refl).
      by destruct (decode Unmarshal a _).
Qed.

(** X13: [send] launches one attempt at once and one more for each tick it
    serves, all with the arguments of the call, and none otherwise. *)
Theorem send_launches_one_attempt_per_tick (retry giveup : Z)
    (ri : option skynet.RequestInfo) (fn : string) (inp : I) (out : O)
    (evs : list send_event) :
  match send Unmarshal retry giveup ri fn inp out evs with
  | Selecting st =>
      s_spawned st = replicate (S (ticks evs)) {| g_ri := ri; g_fn := fn; g_in := inp |}
  | Returned st =>
      ∃ k, k ≤ ticks evs
           ∧ s_spawned st = replicate (S k) {| g_ri := ri; g_fn := fn; g_in := inp |}
  | NotReady => True
  end.
Proof. unfold send. apply send_loop_attempts. Qed.

Lemma send_loop_no_retry (retry giveup : Z) (g : goroutine I) (st0 : send_state I O)
    (evs : list send_event) :
  (retry ≤ 0)%Z →
  match send_loop Unmarshal retry giveup g st0 evs with
  | Selecting st | Returned st => s_spawned st = s_spawned st0
  | NotReady => True
  end.
Proof.
  intros Hr. revert st0. induction evs as [|ev evs IH]; intros st0; simpl; [done|].
  destruct ev as [| |a]; simpl.
  - by assert ((0 <? retry)%Z = false) as -> by lia.
  - by destruct (0 <? giveup)%Z.
  - destruct (err a) as [e|]; simpl.
    + destruct (is_serviceError e); [by rewrite decode_Returned|].
      destruct (giveup =? 0)%Z; [done|].
      apply (IH {| s_err := Some e; s_out := s_out st0; s_spawned := s_spawned st0 |}).
    + by rewrite decode_Returned.
Qed.

(** X14: [SendOnce] makes the one attempt it starts with and no other, whatever
    the timeouts of the client are and however long the call lasts. *)
Theorem SendOnce_launches_one_attempt (c : ServiceClient) (ri : option skynet.RequestInfo)
    (fn : string) (inp : I) (out : O) (evs : list send_event) :
  match SendOnce Unmarshal c ri fn inp out evs with
  | Selecting st | Returned st => s_spawned st = [{| g_ri := ri; g_fn := fn; g_in := inp |}]
  | NotReady => True
  end.
Proof.
  unfold SendOnce, GetTimeout, send. simpl.
  apply (send_loop_no_retry 0 (giveupTimeout c)). lia.
Qed.

Lemma send_loop_no_ticks (retry retry' giveup : Z) (g : goroutine I) (st0 : send_state I O)
    (evs : list send_event) :
  ticks evs = 0 →
  send_loop Unmarshal retry giveup g st0 evs = send_loop Unmarshal retry' giveup g st0 evs.
Proof.
  revert st0. induction evs as [|ev evs IH]; intros st0 Ht; simpl; [done|].
  destruct ev as [| |a]; simpl in *; [done| |].
  - by destruct (0 <? giveup)%Z.
  - destruct (err a) as [e|]; simpl; [|by rewrite decode_Returned].
    destruct (is_serviceError e); [by rewrite decode_Returned|].
    destruct (giveup =? 0)%Z; [done|]. by apply IH.
Qed.

(** X15: on a trace without a served tick [send] does the same for every
    retry interval, that of [SendOnce] included: the interval acts through
    the ticks only. *)
Theorem send_retry_acts_through_ticks (retry retry' giveup : Z)
    (ri : option skynet.RequestInfo) (fn : string) (inp : I) (out : O)
    (evs : list send_event) :
  ticks evs = 0 →
  send Unmarshal retry giveup ri fn inp out evs
  = send Unmarshal retry' giveup ri fn inp out evs.
Proof. intros Ht. unfold send. by apply send_loop_no_ticks. Qed.

End LoopFacts.

(** ** Further properties of attempts *)

Lemma registry_kept_refl (c : ServiceClient) : registry_kept c c.
Proof. by repeat split. Qed.

Lemma registry_kept_trans (c1 c2 c3 : ServiceClient) :
  registry_kept c1 c2 → registry_kept c2 c3 → registry_kept c1 c3.
Proof.
  intros (Ha1&Hb1&Hc1&Hd1&He1) (Ha2&Hb2&Hc2&Hd2&He2). do 4 (split; [congruence|]). intros p. by rewrite He2, He1.
Qed.

(** A change of the arena that shows the same services and closed flags keeps
    the registry. *)
Lemma registry_kept_heap (c : ServiceClient) (h : list servicePool) :
  (∀ p, entry_view <$> h !! p = entry_view <$> heap c !! p) →
  registry_kept c (set_heap h c).
Proof. intros H. by repeat split. Qed.

Lemma with_pool_insert_view (h : list servicePool) (sp : ptr) (e : servicePool)
    (idle : list ServiceResource) (p : ptr) :
  h !! sp = Some e →
  entry_view <$> <[sp := with_pool idle e]> h !! p = entry_view <$> h !! p.
Proof.
  intros He. destruct (decide (sp = p)) as [->|Hne].
  - rewrite list_lookup_insert_eq by (by eapply lookup_lt_Some). by rewrite He.
  - by rewrite list_lookup_insert_ne.
Qed.

Lemma with_pool_alter_view (h : list servicePool) (sp : ptr)
    (f : servicePool → list ServiceResource) (p : ptr) :
  entry_view <$> alter (λ e, with_pool (f e) e) sp h !! p = entry_view <$> h !! p.
Proof.
  destruct (decide (sp = p)) as [->|Hne].
  - rewrite list_lookup_alter_eq. by destruct (h !! p).
  - by rewrite list_lookup_alter_ne.
Qed.

Lemma registry_kept_IsClosed (c c' : ServiceClient) (p : ptr) :
  registry_kept c c' → ptr_IsClosed c' p = ptr_IsClosed c p.
Proof.
  intros (_&_&_&_&H). specialize (H p). unfold ptr_IsClosed.
  destruct (heap c' !! p), (heap c !! p); simpl in H; try done. by injection H.
Qed.

(** A deferred release touches the idle lists only. *)
Lemma run_deferred_kept (c : ServiceClient) (d : deferred) :
  registry_kept c (run_deferred c d) ∧ wire (run_deferred c d) = wire c
  ∧ uuids (run_deferred c d) = uuids c ∧ closedClients (run_deferred c d) = closedClients c
  ∧ Log (run_deferred c d) = Log c.
Proof.
  destruct d as [sp|sp r]; simpl.
  - by repeat split.
  - split; [|done]. apply registry_kept_heap. intros p. apply with_pool_alter_view.
Qed.

Section AttemptFurther.
Context {I : Type}.
Variable Marshal : I → bytes * option error.
Variable Call : nat → nat → string → ServiceRPCIn → ServiceRPCOut * option error.
Variable connectionFactory : Service → nat → option (ServiceResource + error).

(** What [sendToInstance] changes: the generator when [ri] is nil, the wire
    by one call at most, the log and the closed connections when the call
    fails; nothing of the registry, the arena or the instance pool. *)
Lemma sendToInstance_effect (sr : ServiceResource) (ri : option skynet.RequestInfo)
    (fn : string) (inp : I) (c : ServiceClient) :
  registry_kept c (sendToInstance Marshal Call sr ri fn inp c).2
  ∧ one_call_at_most ri c (sendToInstance Marshal Call sr ri fn inp c).2
  ∧ heap (sendToInstance Marshal Call sr ri fn inp c).2 = heap c
  ∧ instancePool (sendToInstance Marshal Call sr ri fn inp c).2 = instancePool c
  ∧ dials (sendToInstance Marshal Call sr ri fn inp c).2 = dials c.
Proof.
  unfold sendToInstance.
  destruct ri as [r|]; simpl; destruct (Marshal inp) as [b [e|]]; simpl.
  all: try (destruct (Call _ _ _ _) as [sout [ce|]]; simpl).
  all: split; [by repeat split|]; split; [|done].
  all: unfold one_call_at_most; simpl; rewrite ?length_app; simpl.
  all: repeat split; try (by apply prefix_app_r); try (by left); try (by right); try lia.
  all: try set_solver.
Qed.

Lemma attempt_exit_kept (defers : list deferred) (c : ServiceClient) :
  registry_kept c (attempt_exit defers c) ∧ wire (attempt_exit defers c) = wire c
  ∧ uuids (attempt_exit defers c) = uuids c
  ∧ closedClients (attempt_exit defers c) = closedClients c
  ∧ Log (attempt_exit defers c) = Log c.
Proof.
  unfold attempt_exit. revert c. induction defers as [|d defers IH]; intros c; simpl.
  { split; [apply registry_kept_refl|done]. }
  destruct (run_deferred_kept c d) as (Hk & Hw & Hu & Hc & Hl).
  destruct (IH (run_deferred c d)) as (Hk' & -> & -> & -> & ->).
  split; [by eapply registry_kept_trans|done].
Qed.

Lemma one_call_at_most_exit (ri : option skynet.RequestInfo) (c c' : ServiceClient)
    (defers : list deferred) :
  one_call_at_most ri c c' → one_call_at_most ri c (attempt_exit defers c').
Proof.
  destruct (attempt_exit_kept defers c') as (_ & Hw & Hu & Hc & Hl).
  unfold one_call_at_most. by rewrite Hw, Hu, Hc, Hl.
Qed.

(** The same for a whole attempt, wherever it stops. *)
Lemma attemptSend_effect (ri : option skynet.RequestInfo) (fn : string) (inp : I)
    (c : ServiceClient) :
  registry_kept c (settled (attemptSend Marshal Call connectionFactory ri fn inp c))
  ∧ one_call_at_most ri c (settled (attemptSend Marshal Call connectionFactory ri fn inp c)).
Proof.
  assert (Hquiet : ∀ c', registry_kept c c' → wire c' = wire c → uuids c' = uuids c →
            closedClients c' = closedClients c → Log c `prefix_of` Log c' →
            registry_kept c c' ∧ one_call_at_most ri c c').
  { intros c' Hk Hw Hu Hc Hl. split; [done|]. unfold one_call_at_most.
    rewrite Hw, Hu, Hc. repeat split; [done|lia|by left|done|done]. }
  destruct (pools.Acquire (ptr_IsClosed c) None (instancePool c)) as [[sp|e|] idle] eqn:Hi.
  2, 3: unfold attemptSend; rewrite Hi; simpl; by apply Hquiet.
  destruct (heap c !! sp) as [e|] eqn:He.
  2: { unfold attemptSend. rewrite Hi. simpl. rewrite He. by apply Hquiet. }
  assert (Hlease : ∀ idle', registry_kept c (leased sp e idle idle' c)).
  { intros idle'. repeat split. intros p. simpl. by apply with_pool_insert_view. }
  destruct (pools.Acquire (sr_IsClosed c) (connectionFactory (sp_service e) (dials c))
              (sp_pool e)) as [r idle'] eqn:Hc.
  rewrite (attemptSend_leased Marshal Call connectionFactory ri fn inp c sp idle e r idle'
             Hi He Hc). cbn zeta.
  destruct r as [sr|cerr|].
  - destruct (sendToInstance_effect sr ri fn inp (leased sp e idle idle' c))
      as (Hk & Hone & _).
    destruct (sendToInstance Marshal Call sr ri fn inp (leased sp e idle idle' c))
      as [[res er] c3]. cbn [snd] in Hk, Hone. cbn [settled]. split.
    + eapply registry_kept_trans; [apply Hlease|].
      eapply registry_kept_trans; [apply Hk|]. apply attempt_exit_kept.
    + by apply (one_call_at_most_exit ri c c3).
  - cbn [settled]. split.
    + eapply registry_kept_trans; [apply Hlease|].
      eapply registry_kept_trans; [|apply attempt_exit_kept]. by repeat split.
    + apply one_call_at_most_exit. unfold one_call_at_most. simpl.
      repeat split; [done|lia|by left|done|by apply prefix_app_r].
  - cbn [settled]. apply Hquiet; [apply Hlease|done..].
Qed.

(** The two deferred calls of an attempt that holds the open entry [sp]. *)
Lemma exit_releases (c3 : ServiceClient) (sp : ptr) (e3 : servicePool)
    (r : option ServiceResource) :
  heap c3 !! sp = Some e3 → sp_closed e3 = false →
  instancePool (attempt_exit [pool_Release sp r; instancePool_Release sp] c3)
  = instancePool c3 ++ [sp]
  ∧ sp_pool <$> heap (attempt_exit [pool_Release sp r; instancePool_Release sp] c3) !! sp
    = Some (pools.Release (sr_IsClosed c3) r (sp_pool e3)).
Proof.
  intros He Ho. unfold attempt_exit. cbn [foldl run_deferred].
  assert (ptr_IsClosed
            (set_heap
               (alter (λ e, with_pool (pools.Release (sr_IsClosed c3) r (sp_pool e)) e) sp
                  (heap c3)) c3) sp = false) as Hopen.
  { unfold ptr_IsClosed. simpl. by rewrite list_lookup_alter_eq, He. }
  unfold pools.Release at 1. rewrite Hopen. simpl.
  by rewrite list_lookup_alter_eq, He.
Qed.

Lemma sendToInstance_unmarshalled (sr : ServiceResource) (ri : option skynet.RequestInfo)
    (fn : string) (inp : I) (c : ServiceClient) (b : bytes) (e : error) :
  Marshal inp = (b, Some e) →
  sendToInstance Marshal Call sr ri fn inp c = ([], Some e, (orFresh ri c).2).
Proof. intros Hm. unfold sendToInstance. destruct ri; simpl; by rewrite Hm. Qed.

(** X20: when the input cannot be marshalled the attempt pushes that error
    without bytes and makes no call: the wire, the log and the closed
    connections are as before, the connection is back at the tail of the idle
    list of its entry and the entry at the tail of the instance pool; for a
    nil [ri] the identifier was drawn all the same. *)
Theorem marshal_failure_sends_nothing
    (ri : option skynet.RequestInfo) (fn : string) (inp : I) (c : ServiceClient)
    (sp : ptr) (idle : list ptr) (e : servicePool) (sr : ServiceResource)
    (idle' : list ServiceResource) (b : bytes) (merr : error) :
  pools.Acquire (ptr_IsClosed c) None (instancePool c) = (pools.Acquired sp, idle) →
  heap c !! sp = Some e →
  pools.Acquire (sr_IsClosed c) (connectionFactory (sp_service e) (dials c)) (sp_pool e)
  = (pools.Acquired sr, idle') →
  sr_IsClosed c sr = false →
  Marshal inp = (b, Some merr) →
  ∃ c',
    attempt_run Marshal Call connectionFactory ri fn inp c
    = Some ({| result := []; err := Some merr |}, c')
    ∧ wire c' = wire c
    ∧ closedClients c' = closedClients c
    ∧ Log c' = Log c
    ∧ uuids c' = uuids (orFresh ri c).2
    ∧ instancePool c' = idle ++ [sp]
    ∧ sp_pool <$> heap c' !! sp = Some (idle' ++ [sr]).
Proof.
  intros Hi He Hc Hsr Hm.
  pose proof (Acquire_lazy_open _ _ _ _ Hi) as Hopen.
  unfold ptr_IsClosed in Hopen. rewrite He in Hopen. unfold IsClosed in Hopen.
  unfold attempt_run.
  rewrite (attemptSend_leased Marshal Call connectionFactory ri fn inp c sp idle e _ idle'
             Hi He Hc). cbn zeta.
  rewrite (sendToInstance_unmarshalled sr ri fn inp _ b merr Hm).
  eexists. split; [reflexivity|].
  destruct (attempt_exit_kept [pool_Release sp (Some sr); instancePool_Release sp]
              (orFresh ri (leased sp e idle idle' c)).2) as (_ & -> & -> & -> & ->).
  destruct (exit_releases (orFresh ri (leased sp e idle idle' c)).2 sp
              (with_pool idle' e) (Some sr)) as [-> ->].
  - destruct ri; simpl; apply list_lookup_insert_eq; by eapply lookup_lt_Some.
  - done.
  - assert (sr_IsClosed (orFresh ri (leased sp e idle idle' c)).2 sr = false) as Hsr'
      by (by destruct ri).
    simpl. rewrite Hsr'. by destruct ri.
Qed.

(** X19: when the call on the wire returns without error, the attempt pushes
    the bytes of the reply, with the error of the reply as a [serviceError]
    if it carries one; exactly that call went out, to the Forward method of
    the service with [fn] as the method; nothing is closed or logged, the
    connection is back at the tail of the idle list of its entry and the
    entry at the tail of the instance pool. *)
Theorem answered_call_returns_the_connection
    (ri : option skynet.RequestInfo) (fn : string) (inp : I) (c : ServiceClient)
    (sp : ptr) (idle : list ptr) (e : servicePool) (sr : ServiceResource)
    (idle' : list ServiceResource) (b : bytes) (sout : ServiceRPCOut) :
  pools.Acquire (ptr_IsClosed c) None (instancePool c) = (pools.Acquired sp, idle) →
  heap c !! sp = Some e →
  pools.Acquire (sr_IsClosed c) (connectionFactory (sp_service e) (dials c)) (sp_pool e)
  = (pools.Acquired sr, idle') →
  sr_IsClosed c sr = false →
  Marshal inp = (b, None) →
  Call (length (wire c)) (rpcClient sr) (Name (sr_service sr) +:+ ".Forward")
    {| RequestInfo := (orFresh ri c).1; Method := fn; In := b |} = (sout, None) →
  ∃ c',
    attempt_run Marshal Call connectionFactory ri fn inp c
    = Some ({| result := Out sout; err := serviceError <$> Err sout |}, c')
    ∧ wire c'
      = wire c ++ [{| wc_client := rpcClient sr;
                      wc_method := Name (sr_service sr) +:+ ".Forward";
                      wc_in := {| RequestInfo := (orFresh ri c).1; Method := fn;
                                  In := b |} |}]
    ∧ closedClients c' = closedClients c
    ∧ Log c' = Log c
    ∧ instancePool c' = idle ++ [sp]
    ∧ sp_pool <$> heap c' !! sp = Some (idle' ++ [sr]).
Proof.
  intros Hi He Hc Hsr Hm Hcall.
  pose proof (Acquire_lazy_open _ _ _ _ Hi) as Hopen.
  unfold ptr_IsClosed in Hopen. rewrite He in Hopen. unfold IsClosed in Hopen.
  unfold attempt_run.
  rewrite (attemptSend_leased Marshal Call connectionFactory ri fn inp c sp idle e _ idle'
             Hi He Hc). cbn zeta.
  rewrite (sendToInstance_called Marshal Call sr ri fn inp (leased sp e idle idle' c) b sout
             None Hm).
  2: { destruct ri; exact Hcall. }
  cbn zeta. set (c3 := set_wire _ _).
  assert (heap c3 !! sp = Some (with_pool idle' e)) as He3.
  { subst c3. destruct ri; simpl; apply list_lookup_insert_eq; by eapply lookup_lt_Some. }
  assert (sr_IsClosed c3 sr = false) as Hsr3 by (by destruct ri).
  assert (instancePool c3 = idle) as Hp3 by (by destruct ri).
  assert (wire c3 = wire c ++ [{| wc_client := rpcClient sr;
                                  wc_method := Name (sr_service sr) +:+ ".Forward";
                                  wc_in := {| RequestInfo := (orFresh ri c).1; Method := fn;
                                              In := b |} |}]) as Hw3 by (by destruct ri).
  assert (closedClients c3 = closedClients c) as Hc3 by (by destruct ri).
  assert (Log c3 = Log c) as Hl3 by (by destruct ri).
  clearbody c3. eexists. split.
  { by destruct (Err sout). }
  destruct (attempt_exit_kept [pool_Release sp (Some sr); instancePool_Release sp] c3)
    as (_ & -> & _ & -> & ->).
  destruct (exit_releases c3 sp (with_pool idle' e) (Some sr) He3 Hopen) as [-> ->].
  simpl. by rewrite Hsr3, Hp3.
Qed.


(** X16: an attempt never writes the registry: wherever it stops, the
    instance map, the timeouts, the senders parked on [muxChan] and the
    service and closed flag of every entry of the arena are what they were. *)
Theorem attempt_keeps_the_registry (ri : option skynet.RequestInfo) (fn : string) (inp : I)
    (c : ServiceClient) :
  registry_kept c (settled (attemptSend Marshal Call connectionFactory ri fn inp c)).
Proof. apply attemptSend_effect. Qed.

(** X17: an attempt makes one call on the wire at most and keeps what went
    out and what was logged before; it draws an identifier only when [ri] is
    nil, and one at most; it never reopens a closed connection. *)
Theorem attempt_makes_one_call_at_most (ri : option skynet.RequestInfo) (fn : string)
    (inp : I) (c : ServiceClient) :
  one_call_at_most ri c (settled (attemptSend Marshal Call connectionFactory ri fn inp c)).
Proof. apply attemptSend_effect. Qed.

(** Nothing in this file writes the timeouts. *)
Lemma history_timeouts (ops : list (client_op I)) (c : ServiceClient) :
  retryTimeout (history Marshal Call connectionFactory ops c) = retryTimeout c
  ∧ giveupTimeout (history Marshal Call connectionFactory ops c) = giveupTimeout c.
Proof.
  unfold history. induction ops as [|op ops IH] using rev_ind; [done|].
  rewrite foldl_snoc. destruct IH as [<- <-].
  destruct op as [ev|r g|ri fn inp]; simpl.
  - destruct (mux_select_timeouts (foldl (apply_op Marshal Call connectionFactory) c ops) ev)
      as (-> & -> & _). done.
  - done.
  - destruct (attemptSend_effect ri fn inp
                (foldl (apply_op Marshal Call connectionFactory) c ops))
      as [(_ & -> & -> & _) _]. done.
Qed.
End AttemptFurther.

Section HistoryFacts.
Context {I O : Type}.
Variable Marshal : I → bytes * option error.
Variable Unmarshal : bytes → O → O * option error.
Variable Call : nat → nat → string → ServiceRPCIn → ServiceRPCOut * option error.
Variable connectionFactory : Service → nat → option (ServiceResource + error).

(** X21: on a client made by [newServiceClient], after any turns of the
    actor, calls of [SetTimeout] and attempts, [GetTimeout] returns the zero
    pair, so [Send] and [SendOnce] both run [send] without ticker and without
    deadline. *)
Theorem Send_never_retries_nor_gives_up (h : list servicePool) (ops : list (client_op I))
    (ri : option skynet.RequestInfo) (fn : string) (inp : I) (out : O)
    (evs : list send_event) :
  GetTimeout (history Marshal Call connectionFactory ops (newServiceClient h)) = (0%Z, 0%Z)
  ∧ Send Unmarshal (history Marshal Call connectionFactory ops (newServiceClient h))
      ri fn inp out evs
    = send Unmarshal 0 0 ri fn inp out evs
  ∧ SendOnce Unmarshal (history Marshal Call connectionFactory ops (newServiceClient h))
      ri fn inp out evs
    = send Unmarshal 0 0 ri fn inp out evs.
Proof.
  destruct (history_timeouts Marshal Call connectionFactory ops (newServiceClient h))
    as [Hr Hg].
  unfold Send, SendOnce, GetTimeout, offered. simpl. rewrite Hr, Hg. done.
Qed.
End HistoryFacts.

(** ** The file collector *)

(** X22: the collector never prunes a directory, and after a walk it holds
    the files it held before followed by the files visited, each once, in
    the order of the visits. *)
Theorem collector_keeps_the_files_in_order (vs : list visit) (ic : instanceFileCollector) :
  files (foldl visit_step ic vs) = files ic ++ visited_files vs
  ∧ ∀ path ic', VisitDir path ic' = (true, ic').
Proof.
  split; [|done]. revert ic. induction vs as [|v vs IH]; intros ic; simpl.
  - by rewrite app_nil_r.
  - rewrite IH. destruct v; simpl; [done|]. by rewrite <- (assoc_L (++)).
Qed.

(** ** Examples for the further properties *)

(** The one instance is removed, and the actor serves a read of the timeouts. *)
Lemma removed_entry_is_never_leased_witness :
  ptr_IsClosed (mux [timeoutChan] (removeInstanceMux (svcA true) oneInstance)) 0 = true
  ∧ pools.Acquire (ptr_IsClosed (mux [timeoutChan] (removeInstanceMux (svcA true) oneInstance)))
      None (instancePool (mux [timeoutChan] (removeInstanceMux (svcA true) oneInstance)))
    ≠ (pools.Acquired 0, []).
Proof.
  refine (removed_entry_is_never_leased (svcA true) oneInstance 0 [timeoutChan] [] _ _).
  - vm_compute; reflexivity.
  - eexists. vm_compute; reflexivity.
Defined.

(** A connection reset, then the deadline of 30. *)
Lemma send_returns_in_three_ways_witness :
  ∃ pre ev post st1,
    [attempts resetError; timeout] = pre ++ ev :: post
    ∧ send copyUnmarshal 0 30 None "Echo" ([] : bytes) [] pre = Selecting st1
    ∧ ((ev = timeout ∧ (0 < 30)%Z
        ∧ s_err resetState = Some (default ErrRequestTimeout (last_recorded None pre))
        ∧ s_out resetState = [])
       ∨ (∃ a, ev = attempts a ∧ failed a ∧ 30%Z = 0%Z
               ∧ s_err resetState = err a ∧ s_out resetState = [])
       ∨ (∃ a, ev = attempts a ∧ decoded a
               ∧ (s_out resetState, s_err resetState) = copyUnmarshal (result a) [])).
Proof.
  refine (send_returns_in_three_ways copyUnmarshal 0 30 None "Echo" [] []
            [attempts resetError; timeout] resetState _).
  reflexivity.
Defined.

(** An error of the remote method next to one byte, decoded. *)
Lemma send_nil_means_decoded_witness :
  ∃ a, attempts a ∈ [attempts remoteError] ∧ decoded a
       ∧ copyUnmarshal (result a) [] = (s_out decodedState, None).
Proof.
  refine (send_nil_means_decoded copyUnmarshal 0 0 None "Echo" [] []
            [attempts remoteError] decodedState _ _); reflexivity.
Defined.

(** Two ticks and no deadline. *)
Lemma send_waits_without_deadline_witness :
  send copyUnmarshal 5 0 None "Echo" [] [] [ticker; ticker] ≠ Returned testState.
Proof.
  refine (send_waits_without_deadline copyUnmarshal 5 0 None "Echo" [] []
            [ticker; ticker] testState _ _).
  - lia.
  - repeat constructor.
Defined.

(** A tick and a connection reset before the deadline. *)
Lemma send_returns_by_the_deadline_witness :
  ∃ st, send copyUnmarshal 5 30 None "Echo" ([] : bytes) []
          ([ticker; attempts resetError] ++ timeout :: [])
        = Returned st.
Proof.
  refine (send_returns_by_the_deadline copyUnmarshal 5 30 None "Echo" [] []
            [ticker; attempts resetError] [] _ _).
  - lia.
  - left. lia.
Defined.


Lemma answered_call_returns_the_connection_witness :
  ∃ c',
    attempt_run copyMarshal refusingCall dialOK None "Echo" [] oneInstance
    = Some ({| result := []; err := Some (serviceError (errorString "no such method")) |}, c')
    ∧ wire c'
      = wire oneInstance
        ++ [{| wc_client := 0; wc_method := "TestService.Forward";
               wc_in := {| RequestInfo := {| RequestID := "0" |}; Method := "Echo";
                           In := [] |} |}]
    ∧ closedClients c' = closedClients oneInstance
    ∧ Log c' = Log oneInstance
    ∧ instancePool c' = [] ++ [0]
    ∧ sp_pool <$> heap c' !! 0 = Some ([] ++ [connA 0]).
Proof.
  refine (answered_call_returns_the_connection copyMarshal refusingCall dialOK
            None "Echo" [] oneInstance 0 []
            {| sp_service := svcA true; sp_pool := []; sp_closed := false |}
            (connA 0) [] []
            {| Out := []; Err := Some (errorString "no such method") |} _ _ _ _ _ _);
    vm_compute; reflexivity.
Defined.

Lemma marshal_failure_sends_nothing_witness :
  ∃ c',
    attempt_run noMarshal echoCall dialOK None "Echo" [] oneInstance
    = Some ({| result := []; err := Some (errorString "cannot marshal") |}, c')
    ∧ wire c' = wire oneInstance
    ∧ closedClients c' = closedClients oneInstance
    ∧ Log c' = Log oneInstance
    ∧ uuids c' = uuids (orFresh None oneInstance).2
    ∧ instancePool c' = [] ++ [0]
    ∧ sp_pool <$> heap c' !! 0 = Some ([] ++ [connA 0]).
Proof.
  refine (marshal_failure_sends_nothing noMarshal echoCall dialOK None "Echo" []
            oneInstance 0 []
            {| sp_service := svcA true; sp_pool := []; sp_closed := false |}
            (connA 0) [] [] (errorString "cannot marshal") _ _ _ _ _);
    vm_compute; reflexivity.
Defined.

(** ** The registry under interleaving *)

(** The invariant does not look at the order of the entries. *)
Lemma fleet_inv_perm (c : ServiceClient) (l l' : list ptr) :
  l ≡ₚ l' → fleet_inv c l → fleet_inv c l'.
Proof.
  intros Hp (H1 & H2 & H3). split; [|split].
  - intros k p Hk. destruct (H1 _ _ Hk) as (e & He & Ho & Ha & Hin).
    exists e. by rewrite <- Hp.
  - intros p Hin. rewrite <- Hp in Hin. auto.
  - by rewrite <- Hp.
Qed.

(** Dropping closed entries keeps it. *)
Lemma fleet_inv_shrink (c : ServiceClient) (l l' : list ptr) :
  l' `sublist_of` l →
  (∀ p, p ∈ l → ptr_IsClosed c p = false → p ∈ l') →
  fleet_inv c l → fleet_inv c l'.
Proof.
  intros Hsub Hopen (H1 & H2 & H3). split; [|split].
  - intros k p Hk. destruct (H1 _ _ Hk) as (e & He & Ho & Ha & Hin).
    exists e. repeat split; try done. apply Hopen; [done|].
    unfold ptr_IsClosed. by rewrite He.
  - intros p Hin. apply H2. by eapply elem_of_sublist.
  - by eapply sublist_NoDup.
Qed.

(** So does any step that keeps the registry. *)
Lemma fleet_inv_kept (c c' : ServiceClient) (l : list ptr) :
  registry_kept c c' → fleet_inv c l → fleet_inv c' l.
Proof.
  intros (Hi & _ & _ & _ & Hv) (H1 & H2 & H3).
  assert (Hview : ∀ p e, heap c !! p = Some e →
            ∃ e', heap c' !! p = Some e' ∧ sp_service e' = sp_service e
                  ∧ sp_closed e' = sp_closed e).
  { intros p e He. specialize (Hv p). rewrite He in Hv.
    destruct (heap c' !! p) as [e'|]; [|done]. injection Hv as Hs Hc. eauto. }
  split; [|split; [|done]].
  - intros k p Hk. rewrite Hi in Hk. destruct (H1 _ _ Hk) as (e & He & Ho & Ha & Hin).
    destruct (Hview _ _ He) as (e' & He' & Hs & Hc). exists e'.
    repeat split; [done|congruence|congruence|done].
  - intros p Hin. destruct (H2 _ Hin) as (e & He & Hm).
    destruct (Hview _ _ He) as (e' & He' & Hs & Hc). exists e'. split; [done|].
    rewrite Hi, Hs, Hc. done.
Qed.

Lemma addInstanceMux_fleet (s : Service) (c : ServiceClient) (L : list ptr) :
  fleet_inv c (instancePool c ++ L) →
  fleet_inv (addInstanceMux s c) (instancePool (addInstanceMux s c) ++ L).
Proof.
  intros Hinv.
  destruct (instances c !! ServiceAddr s) as [p|] eqn:Hk.
  { rewrite addInstanceMux_known; [done|by eexists]. }
  rewrite (addInstanceMux_new _ _ Hk). simpl.
  apply (fleet_inv_perm _ (length (heap c) :: instancePool c ++ L)).
  { rewrite <- (assoc_L (++)). simpl. by rewrite <- Permutation_middle. }
  destruct Hinv as (Hmap & Hpool & Hnd). split; [|split]; simpl.
  - intros k p. rewrite lookup_insert. case_decide as Hkey.
    + intros [= <-]. eexists. rewrite list_lookup_middle by done.
      split; [done|]. simpl. repeat split; [done|]. by left.
    + intros Hp. destruct (Hmap _ _ Hp) as (e & He & ? & ? & ?).
      exists e. rewrite (lookup_app_l_Some _ _ _ _ He). repeat split; [done..|].
      by right.
  - intros p [->|Hp]%elem_of_cons.
    + eexists. rewrite list_lookup_middle by done. split; [done|].
      simpl. intros _. apply lookup_insert_eq.
    + destruct (Hpool _ Hp) as (e & He & Hopen). exists e.
      rewrite (lookup_app_l_Some _ _ _ _ He). split; [done|].
      intros Ho. specialize (Hopen Ho). rewrite lookup_insert_ne; [done|].
      intros Heq. rewrite <- Heq in Hopen. congruence.
  - apply NoDup_cons. split; [|done]. intros Hp.
    destruct (Hpool _ Hp) as (e & He & _). apply lookup_lt_Some in He. lia.
Qed.

Lemma removeInstanceMux_fleet (s : Service) (c : ServiceClient) (L : list ptr) :
  fleet_inv c (instancePool c ++ L) →
  fleet_inv (removeInstanceMux s c) (instancePool (removeInstanceMux s c) ++ L).
Proof.
  intros (Hmap & Hpool & Hnd).
  destruct (instances c !! ServiceAddr s) as [sp|] eqn:Hk.
  2: { by rewrite removeInstanceMux_unknown. }
  rewrite (removeInstanceMux_known _ _ _ Hk).
  destruct (Hmap _ _ Hk) as (es & Hes & Hopen_s & Haddr_s & Hin_s).
  split; [|split]; simpl; [| |done].
  - intros k p. rewrite lookup_delete. case_decide as Hkey; [done|].
    intros Hp. destruct (Hmap _ _ Hp) as (e & He & ? & Haddr & ?).
    exists e. split; [|done].
    rewrite list_lookup_alter_ne; [done|]. intros ->. congruence.
  - intros p Hp. destruct (Hpool _ Hp) as (e & He & Hopen).
    destruct (decide (sp = p)) as [->|Hne].
    + exists (Close e). rewrite list_lookup_alter_eq, He. split; [done|]. done.
    + exists e. rewrite list_lookup_alter_ne by done. split; [done|].
      intros Ho. specialize (Hopen Ho). rewrite lookup_delete_ne; [done|].
      intros Heq. rewrite <- Heq in Hopen. congruence.
Qed.

(** A turn of the actor, whatever the attempts in flight hold. *)
Lemma mux_select_fleet (c : ServiceClient) (ev : mux_event) (L : list ptr) :
  fleet_inv c (instancePool c ++ L) →
  fleet_inv (mux_select c ev) (instancePool (mux_select c ev) ++ L).
Proof.
  destruct ev as [ns|]; [|done]. simpl. revert c.
  induction ns as [|n ns IH]; intros c Hc; [done|]. simpl. apply IH.
  unfold notify. destruct (Type_ n), (Registered (Service_ n));
    auto using addInstanceMux_fleet, removeInstanceMux_fleet.
Qed.

(** What [take_idle] drops is closed. *)
Lemma take_idle_split {R : Type} (closed : R → bool) (idle : list R) :
  ∃ dropped,
    Forall (λ x, closed x = true) dropped
    ∧ idle = dropped ++ option_list (pools.take_idle closed idle).1
               ++ (pools.take_idle closed idle).2.
Proof.
  induction idle as [|x idle (dropped & Hd & Heq)]; simpl.
  - by exists [].
  - destruct (closed x) eqn:Hx.
    + exists (x :: dropped). split; [by constructor|]. simpl. by rewrite <- Heq.
    + by exists [].
Qed.

(** [Acquire] on the instance pool takes an entry out of the pool, or
    blocks; it does not fail. *)
Lemma Acquire_lazy_split (c : ServiceClient) (L : list ptr) :
  fleet_inv c (instancePool c ++ L) →
  match (pools.Acquire (ptr_IsClosed c) None (instancePool c)).1 with
  | pools.Acquired sp =>
      fleet_inv c ((pools.Acquire (ptr_IsClosed c) None (instancePool c)).2 ++ sp :: L)
  | pools.AcquireBlocks =>
      fleet_inv c ((pools.Acquire (ptr_IsClosed c) None (instancePool c)).2 ++ L)
  | pools.AcquireError _ => False
  end.
Proof.
  intros Hinv. unfold pools.Acquire.
  destruct (take_idle_split (ptr_IsClosed c) (instancePool c)) as (dropped & Hd & Heq).
  destruct (pools.take_idle (ptr_IsClosed c) (instancePool c)) as [[sp|] idle];
    simpl in *; rewrite Heq in Hinv.
  - apply (fleet_inv_perm _ (sp :: idle ++ L)); [apply Permutation_middle|].
    revert Hinv. apply fleet_inv_shrink.
    + rewrite <- (assoc_L (++)). by apply sublist_inserts_l.
    + intros p [Hp|Hp]%elem_of_app Ho; [|apply elem_of_cons; right; apply elem_of_app; by right].
      apply elem_of_app in Hp as [Hp|Hp].
      * rewrite Forall_forall in Hd. specialize (Hd _ Hp). congruence.
      * apply elem_of_cons in Hp as [->|Hp]; [by left|].
        right. apply elem_of_app. by left.
  - revert Hinv. apply fleet_inv_shrink.
    + rewrite <- (assoc_L (++)). by apply sublist_inserts_l.
    + intros p [Hp|Hp]%elem_of_app Ho; [|apply elem_of_app; by right].
      apply elem_of_app in Hp as [Hp|Hp]; [|apply elem_of_app; by left].
      rewrite Forall_forall in Hd. specialize (Hd _ Hp). congruence.
Qed.

Section Interleaving.
Context {I : Type}.
Variable Marshal : I → bytes * option error.
Variable Call : nat → nat → string → ServiceRPCIn → ServiceRPCOut * option error.
Variable connectionFactory : Service → nat → option (ServiceResource + error).

(** An attempt that holds the entry [sp] keeps holding it, and keeps the
    registry and the instance pool, until it exits. *)
Lemma attemptSend_from_holds (sp : ptr) (e : servicePool) (ri : option skynet.RequestInfo)
    (fn : string) (inp : I) (c : ServiceClient) :
  heap c !! sp = Some e →
  registry_kept c
    (status_state (attemptSend_from Marshal Call connectionFactory (pools.Acquired sp)
                     ri fn inp c))
  ∧ instancePool
      (status_state (attemptSend_from Marshal Call connectionFactory (pools.Acquired sp)
                       ri fn inp c))
    = instancePool c
  ∧ held (status_defers (attemptSend_from Marshal Call connectionFactory (pools.Acquired sp)
                           ri fn inp c))
    = [sp].
Proof.
  intros He. unfold attemptSend_from. rewrite He.
  set (c1 := λ idle', set_dials (S (dials c))
                        (set_heap (<[sp := with_pool idle' e]> (heap c)) c)).
  assert (Hlease : ∀ idle', registry_kept c (c1 idle')).
  { intros idle'. repeat split. intros p. simpl. by apply with_pool_insert_view. }
  destruct (pools.Acquire _ _ (sp_pool e)) as [[sr|cerr|] idle']; cbn zeta.
  - destruct (sendToInstance_effect Marshal Call sr ri fn inp (c1 idle'))
      as (Hk & _ & _ & Hp & _).
    fold (c1 idle').
    destruct (sendToInstance Marshal Call sr ri fn inp (c1 idle')) as [[res er] c3].
    cbn [snd] in Hk, Hp. cbn [status_state status_defers]. split; [|split; [|done]].
    + eapply registry_kept_trans; [apply Hlease|done].
    + by rewrite Hp.
  - fold (c1 idle'). cbn [status_state status_defers]. split; [|done].
    eapply registry_kept_trans; [apply Hlease|]. by repeat split.
  - fold (c1 idle'). cbn [status_state status_defers]. split; [apply Hlease|done].
Qed.

(** The start of an attempt. *)
Lemma attemptSend_fleet (ri : option skynet.RequestInfo) (fn : string) (inp : I)
    (c : ServiceClient) (L : list ptr) :
  fleet_inv c (instancePool c ++ L) →
  fleet_inv (status_state (attemptSend Marshal Call connectionFactory ri fn inp c))
    (instancePool (status_state (attemptSend Marshal Call connectionFactory ri fn inp c))
     ++ held (status_defers (attemptSend Marshal Call connectionFactory ri fn inp c)) ++ L).
Proof.
  intros Hinv. apply Acquire_lazy_split in Hinv. unfold attemptSend.
  destruct (pools.Acquire (ptr_IsClosed c) None (instancePool c)) as [[sp|e|] idle];
    simpl in Hinv; [| done |exact Hinv].
  assert (fleet_inv (set_instancePool idle c) (idle ++ sp :: L)) as Hinv' by exact Hinv.
  destruct Hinv' as (_ & Hpool & _).
  destruct (Hpool sp) as (e & He & _).
  { apply elem_of_app. right. by left. }
  destruct (attemptSend_from_holds sp e ri fn inp (set_instancePool idle c) He)
    as (Hk & -> & ->).
  simpl. by apply (fleet_inv_kept (set_instancePool idle c)).
Qed.

(** The exit of an attempt: what it holds goes back to the pool, or is
    dropped when it was closed meanwhile. *)
Lemma attempt_exit_fleet (defers : list deferred) (c : ServiceClient) (L : list ptr) :
  fleet_inv c (instancePool c ++ held defers ++ L) →
  fleet_inv (attempt_exit defers c) (instancePool (attempt_exit defers c) ++ L).
Proof.
  unfold attempt_exit. revert c. induction defers as [|d defers IH]; intros c Hinv; [done|].
  cbn [foldl]. apply IH. destruct (run_deferred_kept c d) as [Hk _].
  apply (fleet_inv_kept c); [done|].
  destruct d as [sp|sp r]; cbn [run_deferred held omap] in *; simpl; [|exact Hinv].
  destruct (ptr_IsClosed c sp) eqn:Hsp.
  - revert Hinv. apply fleet_inv_shrink.
    + apply sublist_app; [done|]. by apply sublist_cons.
    + intros p [Hp|Hp]%elem_of_app Ho; [apply elem_of_app; by left|].
      apply elem_of_cons in Hp as [->|Hp]; [congruence|].
      apply elem_of_app. by right.
  - revert Hinv. apply fleet_inv_perm.
    rewrite <- (assoc_L (++)). simpl. done.
Qed.

Lemma lent_in_flight (g : goroutine I) (a : attempt_status) :
  lent (in_flight g a) = held (status_defers a).
Proof. unfold lent. destruct a; simpl; by rewrite ?app_nil_r. Qed.

Lemma lent_app (fs fs' : list (flight I)) : lent (fs ++ fs') = lent fs ++ lent fs'.
Proof. apply bind_app. Qed.

Lemma lent_middle (fs : list (flight I)) (i : nat) (f : flight I) :
  fs !! i = Some f →
  lent fs = lent (take i fs) ++ held (f_defers f) ++ lent (drop (S i) fs).
Proof.
  intros Hf. rewrite <- (take_drop_middle _ _ _ Hf) at 1.
  rewrite lent_app. unfold lent at 2. by rewrite bind_cons.
Qed.

(** A parked attempt that tries again. *)
Lemma resume_fleet (f : flight I) (c : ServiceClient) (L1 L2 : list ptr) :
  fleet_inv c (instancePool c ++ L1 ++ held (f_defers f) ++ L2) →
  fleet_inv (status_state (resume Marshal Call connectionFactory f c))
    (instancePool (status_state (resume Marshal Call connectionFactory f c))
     ++ L1 ++ held (status_defers (resume Marshal Call connectionFactory f c)) ++ L2).
Proof.
  intros Hinv. unfold resume. destruct (f_pushing f) as [a|]; [done|].
  destruct (f_defers f) as [|[sp|sp r] [|d defers]] eqn:Hd; try done.
  - simpl in Hinv.
    apply (fleet_inv_perm _ (instancePool (status_state (attemptSend Marshal Call
             connectionFactory (g_ri (f_args f)) (g_fn (f_args f)) (g_in (f_args f)) c))
             ++ held (status_defers (attemptSend Marshal Call connectionFactory
                  (g_ri (f_args f)) (g_fn (f_args f)) (g_in (f_args f)) c))
             ++ L1 ++ L2)).
    { apply Permutation_app_head. rewrite !(assoc_L (++)).
      apply Permutation_app_tail, Permutation_app_comm. }
    by apply attemptSend_fleet.
  - simpl in Hinv. pose proof Hinv as (H1 & H2 & H3).
    destruct (H2 sp) as (e & He & _).
    { apply elem_of_app. right. apply elem_of_app. right. by left. }
    destruct (attemptSend_from_holds sp e
                (g_ri (f_args f)) (g_fn (f_args f)) (g_in (f_args f)) c He)
      as (Hk & -> & ->).
    by apply (fleet_inv_kept c).
Qed.

Lemma system_step_fleet (s : ServiceClient * list (flight I)) (st : step I) :
  fleet_inv s.1 (instancePool s.1 ++ lent s.2) →
  fleet_inv (system_step Marshal Call connectionFactory s st).1
    (instancePool (system_step Marshal Call connectionFactory s st).1
     ++ lent (system_step Marshal Call connectionFactory s st).2).
Proof.
  destruct s as [c fs]. intros Hinv. cbn [fst snd] in Hinv.
  destruct st as [ev|retry giveup|g|i|i]; cbn [system_step fst snd].
  - by apply mux_select_fleet.
  - exact Hinv.
  - rewrite lent_app, lent_in_flight.
    eapply fleet_inv_perm; [|apply (attemptSend_fleet _ _ _ _ (lent fs) Hinv)].
    apply Permutation_app_head, Permutation_app_comm.
  - destruct (fs !! i) as [f|] eqn:Hf; [|done]. cbn [fst snd].
    rewrite !lent_app, lent_in_flight. apply resume_fleet.
    by rewrite <- (lent_middle _ _ _ Hf).
  - destruct (fs !! i) as [f|] eqn:Hf; [|done].
    destruct (f_pushing f); [|done]. cbn [fst snd]. rewrite lent_app.
    apply attempt_exit_fleet. revert Hinv. apply fleet_inv_perm.
    rewrite (lent_middle _ _ _ Hf). apply Permutation_app_head.
    rewrite !(assoc_L (++)). apply Permutation_app_tail, Permutation_app_comm.
Qed.

Lemma system_run_fleet (steps : list (step I)) (s : ServiceClient * list (flight I)) :
  fleet_inv s.1 (instancePool s.1 ++ lent s.2) →
  fleet_inv (system_run Marshal Call connectionFactory steps s).1
    (instancePool (system_run Marshal Call connectionFactory steps s).1
     ++ lent (system_run Marshal Call connectionFactory steps s).2).
Proof.
  unfold system_run. revert s. induction steps as [|st steps IH]; intros s Hs; [done|].
  simpl. by apply IH, system_step_fleet.
Qed.

(** C6, amended: at every point of every interleaving of the turns of the
    actor with calls of [SetTimeout] and with the attempts of concurrent
    calls, the keys of the instance map are the addresses of the entries that
    are not closed and that the instance pool holds or an attempt in flight
    has leased from it; entry by entry: the map points to an entry exactly
    when it is open and held by the pool or by an attempt, and no entry is
    held twice. *)
Theorem registry_matches_open_entries (h : list servicePool) (steps : list (step I)) :
  let s := system_run Marshal Call connectionFactory steps (newServiceClient h, []) in
  dom (instances s.1) = open_addresses s.1 (instancePool s.1 ++ lent s.2)
  ∧ (∀ p, (∃ k, instances s.1 !! k = Some p)
          ↔ p ∈ instancePool s.1 ++ lent s.2 ∧ ptr_IsClosed s.1 p = false)
  ∧ NoDup (instancePool s.1 ++ lent s.2).
Proof.
  intros s.
  assert (fleet_inv (newServiceClient h)
            (instancePool (newServiceClient h) ++ lent ([] : list (flight I)))) as H0.
  { split; [|split]; simpl.
    - intros k p Hk. by rewrite lookup_empty in Hk.
    - intros p Hp. by apply not_elem_of_nil in Hp.
    - constructor. }
  destruct (system_run_fleet steps (newServiceClient h, []) H0) as (Hmap & Hpool & Hnd).
  fold s in Hmap, Hpool, Hnd. set (c := s.1) in *. set (owned := instancePool c ++ lent s.2) in *.
  assert (Hptr : ∀ p, (∃ k, instances c !! k = Some p)
                      ↔ p ∈ owned ∧ ptr_IsClosed c p = false).
  { intros p. unfold ptr_IsClosed. split.
    - intros [k Hk]. destruct (Hmap _ _ Hk) as (e & -> & ? & ? & ?). done.
    - intros [Hp Ho]. destruct (Hpool _ Hp) as (e & He & Hopen).
      rewrite He in Ho. eauto. }
  split; [|done].
  apply set_eq. intros k. unfold open_addresses.
  rewrite elem_of_dom, elem_of_list_to_set, list_elem_of_omap. split.
  - intros [p Hk]. exists p. rewrite list_elem_of_filter.
    destruct (proj1 (Hptr p) (ex_intro _ k Hk)) as [Hp Ho].
    destruct (Hmap _ _ Hk) as (e & -> & ? & <- & ?). done.
  - intros (p & [Ho Hp]%list_elem_of_filter & Hk).
    destruct (Hpool _ Hp) as (e & He & Hopen). unfold ptr_IsClosed in Ho.
    rewrite He in Ho, Hk. simpl in Hk. injection Hk as <-. eauto.
Qed.
End Interleaving.

(** ** The request identifier *)

Section IdentifierFacts.
Context {I O : Type}.
Variable Marshal : I → bytes * option error.
Variable Unmarshal : bytes → O → O * option error.
Variable Call : nat → nat → string → ServiceRPCIn → ServiceRPCOut * option error.
Variable connectionFactory : Service → nat → option (ServiceResource + error).

(** [sendToInstance] with a nil [requestInfo]: one identifier is drawn, and
    it is the one the request carries when the input can be marshalled. *)
Lemma sendToInstance_nil (sr : ServiceResource) (fn : string) (inp : I) (c : ServiceClient) :
  uuids (sendToInstance Marshal Call sr None fn inp c).2 = (UUID (uuids c)).2
  ∧ (∀ b, Marshal inp = (b, None) →
       wire_ids (sendToInstance Marshal Call sr None fn inp c).2
       = wire_ids c ++ [(UUID (uuids c)).1])
  ∧ (∀ b merr, Marshal inp = (b, Some merr) →
       wire (sendToInstance Marshal Call sr None fn inp c).2 = wire c).
Proof.
  unfold sendToInstance, wire_ids. simpl.
  destruct (Marshal inp) as [b [merr|]]; simpl.
  - split; [done|]. split; [by intros ? [=]|done].
  - destruct (Call _ _ _ _) as [sout [ce|]]; simpl;
      (split; [done|]); (split; [|by intros ? ? [=]]); intros _ _;
      by rewrite fmap_app.
Qed.

(** C9, amended: [Send] and [SendOnce] hand a nil [ri] as it is to every
    attempt they launch.  An attempt that has leased an entry synthesizes the
    [RequestInfo] in [sendToInstance], once it has a connection: it draws one
    identifier from [skynet.UUID] there, and its request carries it.  An
    attempt that gets no connection, or waits for one, draws none and sends
    nothing. *)
Theorem nil_requestInfo_is_filled_in_by_the_attempt
    (c : ServiceClient) (fn : string) (inp : I) (out : O) (evs : list send_event)
    (g : goroutine I) (c' : ServiceClient) (sp : ptr) (idle : list ptr) (e : servicePool)
    (r : pools.acquired ServiceResource) (idle' : list ServiceResource) :
  g ∈ spawned_of (Send Unmarshal c None fn inp out evs)
  ∨ g ∈ spawned_of (SendOnce Unmarshal c None fn inp out evs) →
  pools.Acquire (ptr_IsClosed c') None (instancePool c') = (pools.Acquired sp, idle) →
  heap c' !! sp = Some e →
  pools.Acquire (sr_IsClosed c') (connectionFactory (sp_service e) (dials c')) (sp_pool e)
  = (r, idle') →
  g = {| g_ri := None; g_fn := fn; g_in := inp |}
  ∧ match r with
    | pools.Acquired sr =>
        ∃ a c'',
          attempt_run Marshal Call connectionFactory (g_ri g) (g_fn g) (g_in g) c'
          = Some (a, c'')
          ∧ uuids c'' = (UUID (uuids c')).2
          ∧ (∀ b, Marshal inp = (b, None) →
               wire_ids c'' = wire_ids c' ++ [(UUID (uuids c')).1])
          ∧ (∀ b merr, Marshal inp = (b, Some merr) → wire c'' = wire c')
    | pools.AcquireError cerr =>
        ∃ c'',
          attempt_run Marshal Call connectionFactory (g_ri g) (g_fn g) (g_in g) c'
          = Some ({| result := []; err := Some cerr |}, c'')
          ∧ uuids c'' = uuids c' ∧ wire c'' = wire c'
    | pools.AcquireBlocks =>
        attempt_run Marshal Call connectionFactory (g_ri g) (g_fn g) (g_in g) c' = None
        ∧ uuids (settled (attemptSend Marshal Call connectionFactory
                            (g_ri g) (g_fn g) (g_in g) c')) = uuids c'
        ∧ wire (settled (attemptSend Marshal Call connectionFactory
                           (g_ri g) (g_fn g) (g_in g) c')) = wire c'
    end.
Proof.
  intros Hg Hi He Hc.
  assert (g = {| g_ri := None; g_fn := fn; g_in := inp |}) as ->.
  { assert (∀ retry giveup,
      Forall (λ g', g' = {| g_ri := None; g_fn := fn; g_in := inp |})
        (spawned_of (send Unmarshal retry giveup None fn inp out evs))) as Hall.
    { intros retry giveup. unfold send.
      by apply send_loop_spawned; [|constructor]. }
    unfold Send, SendOnce, GetTimeout in Hg. simpl in Hg.
    destruct Hg as [Hg|Hg]; eapply Forall_forall in Hg; try apply Hall; done. }
  split; [done|]. cbn [g_ri g_fn g_in]. unfold attempt_run.
  rewrite (attemptSend_leased Marshal Call connectionFactory None fn inp c' sp idle e r idle'
             Hi He Hc). cbn zeta.
  destruct r as [sr|cerr|].
  - destruct (sendToInstance_nil sr fn inp (leased sp e idle idle' c')) as (Hu & Hw & Hm).
    destruct (sendToInstance Marshal Call sr None fn inp (leased sp e idle idle' c'))
      as [[res er] c3]. cbn [snd] in Hu, Hw, Hm. cbn [settled].
    eexists _, _. split; [reflexivity|].
    destruct (attempt_exit_kept [pool_Release sp (Some sr); instancePool_Release sp] c3)
      as (_ & Hw' & -> & _). unfold wire_ids in *. rewrite Hw'. done.
  - eexists. split; [reflexivity|].
    by destruct (attempt_exit_kept [pool_Release sp None; instancePool_Release sp]
                   (set_Log (Log (leased sp e idle idle' c') ++ [LogError cerr])
                      (leased sp e idle idle' c'))) as (_ & -> & -> & _).
  - done.
Qed.
End IdentifierFacts.

(** ** Examples for the revised claims *)

(** One echoed attempt of a call without [RequestInfo]. *)
Lemma nil_requestInfo_is_filled_in_by_the_attempt_witness :
  testGoroutine = {| g_ri := None; g_fn := "Echo"; g_in := [] |}
  ∧ ∃ a c'',
      attempt_run copyMarshal echoCall dialOK (g_ri testGoroutine) (g_fn testGoroutine)
        (g_in testGoroutine) oneInstance = Some (a, c'')
      ∧ uuids c'' = (UUID (uuids oneInstance)).2
      ∧ (∀ b, copyMarshal [] = (b, None) →
           wire_ids c'' = wire_ids oneInstance ++ [(UUID (uuids oneInstance)).1])
      ∧ (∀ b merr, copyMarshal [] = (b, Some merr) → wire c'' = wire oneInstance).
Proof.
  refine (nil_requestInfo_is_filled_in_by_the_attempt copyMarshal copyUnmarshal echoCall
            dialOK oneInstance "Echo" [] [] [] testGoroutine oneInstance 0 []
            {| sp_service := svcA true; sp_pool := []; sp_closed := false |}
            (pools.Acquired (connA 0)) [] _ _ _ _).
  - left. vm_compute. by left.
  - vm_compute; reflexivity.
  - vm_compute; reflexivity.
  - vm_compute; reflexivity.
Defined.

(** C9 as it is stated does not hold: a [Send] with a nil [ri] on the client
    that has one instance launches its attempt with nil; the instance
    refuses the connection, the attempt pushes that error and exits, and
    [Send] returns it: no identifier was synthesized at any point of the
    call, and nothing went out. *)
Lemma nil_requestInfo_is_not_filled_in_by_send :
  g_ri <$> spawned_of (Send copyUnmarshal oneInstance None "Echo" ([] : bytes) [] [])
  = [None]
  ∧ uuids oneInstance = 0%N
  ∧ (attempt_run copyMarshal echoCall dialRefused None "Echo" [] oneInstance
       ≫= λ r, Some (r.1, uuids r.2, wire_ids r.2))
    = Some (refusedError, 0%N, [])
  ∧ Send copyUnmarshal oneInstance None "Echo" ([] : bytes) [] [attempts refusedError]
    = Returned {| s_err := Some (errorString "connection refused"); s_out := [];
                  s_spawned := [testGoroutine] |}.
Proof. by vm_compute. Qed.

(** C6 as it is stated does not hold.  After an Add and a Remove of one
    address the map has no key and the instance pool still holds the entry,
    now closed: the Remove did not touch the pool.  And while an attempt
    holds the one instance and waits for a connection, the map has the key
    and the instance pool is empty. *)
Lemma removed_entry_stays_in_pool :
  dom (instances addedThenRemoved) ≠ pool_addresses addedThenRemoved
  ∧ instancePool addedThenRemoved = instancePool oneInstance
  ∧ instancePool addedThenRemoved = [0]
  ∧ ptr_IsClosed addedThenRemoved 0 = true
  ∧ dom (instances parkedOnConnection.1) ≠ live_pool_addresses parkedOnConnection.1
  ∧ dom (instances parkedOnConnection.1) ≠ pool_addresses parkedOnConnection.1
  ∧ instances parkedOnConnection.1 !! "10.0.0.1:9000" = Some 0
  ∧ instancePool parkedOnConnection.1 = []
  ∧ lent parkedOnConnection.2 = [0]
  ∧ ptr_IsClosed parkedOnConnection.1 0 = false.
Proof.
  assert (dom (instances addedThenRemoved) = ∅) as ->
    by (apply dom_empty_iff_L; by vm_compute).
  assert ("10.0.0.1:9000" ∈ pool_addresses addedThenRemoved) as Hin.
  { unfold pool_addresses. apply elem_of_list_to_set, list_elem_of_omap.
    exists 0. split; vm_compute; [left|reflexivity]. }
  assert (live_pool_addresses parkedOnConnection.1 = ∅) as -> by (by vm_compute).
  assert (pool_addresses parkedOnConnection.1 = ∅) as -> by (by vm_compute).
  assert ("10.0.0.1:9000" ∈ dom (instances parkedOnConnection.1)) as Hkey.
  { apply elem_of_dom. exists 0. by vm_compute. }
  split; [intros Heq; rewrite <- Heq in Hin; by apply not_elem_of_empty in Hin|].
  do 3 (split; [by vm_compute|]).
  split; [intros Heq; rewrite Heq in Hkey; by apply not_elem_of_empty in Hkey|].
  split; [intros Heq; rewrite Heq in Hkey; by apply not_elem_of_empty in Hkey|].
  by vm_compute.
Qed.

(** A connection reset and the deadline, with a retry interval of 5 and
    with none. *)
Lemma send_retry_acts_through_ticks_witness :
  send copyUnmarshal 5 30 None "Echo" ([] : bytes) [] [attempts resetError; timeout]
  = send copyUnmarshal 0 30 None "Echo" ([] : bytes) [] [attempts resetError; timeout].
Proof.
  refine (send_retry_acts_through_ticks copyUnmarshal 5 0 30 None "Echo" [] []
            [attempts resetError; timeout] _).
  reflexivity.
Defined.

End client.
